(** * Prozess-Doku: version policy, finalisation, persistence and PDF paging

    A shallow embedding of the process-documentation editor
    (the single-file React application) and the proofs of its
    specification.

        Conventions of the embedding.
    - JavaScript numbers that the program only ever uses as counters
      (version components, list positions) are [N] or [nat]: they are
      exact, as the numbers of the program are for integers below 2^53.
      Lengths, coordinates and scale factors are exact rationals [Q],
      i.e. the arithmetic of the layout is read without rounding.
    - Strings are [string]; [pretty] is the decimal rendering a template
      literal gives an integer.
    - React state is an explicit record; every event handler is a function
      on that record, followed by the editor effect where the handler
      replaces [process] or [currentIndex].
    - Everything the browser or jsPDF decides (page size, image decoding,
      line breaking, clock, locale, random ids) is a field of a platform
      record the definitions take as an argument. *)

From Stdlib Require Import QArith Qminmax Lqa Lia Ascii String.
From stdpp Require Import base decidable option list strings pretty.

(** ** Decimal digits and the version pattern *)

Module Version.

(** [\d] of the pattern: the ASCII digits. *)
Definition is_digit (c : ascii) : bool :=
  (48 <=? nat_of_ascii c)%nat && (nat_of_ascii c <=? 57)%nat.

Definition digit_value (c : ascii) : N := N.of_nat (nat_of_ascii c - 48).

(** The longest prefix of digits, and what follows it ([\d+] is greedy
    and a digit is never a dot, so the pattern never backtracks). *)
Fixpoint span_digits (s : string) : string * string :=
  match s with
  | String c r =>
      if is_digit c then let (a, t) := span_digits r in (String c a, t)
      else (EmptyString, s)
  | EmptyString => (EmptyString, EmptyString)
  end.

(** [v.match(/^(\d+)\.(\d+)$/)]: the two groups, or [None] for [null]. *)
Definition match_version (v : string) : option (string * string) :=
  match span_digits v with
  | (String _ _ as a, String "." r) =>
      match span_digits r with
      | (String _ _ as b, EmptyString) => Some (a, b)
      | _ => None
      end
  | _ => None
  end.

(** [/^\d+\.\d+$/.test(v)] *)
Definition test_version (v : string) : bool :=
  match match_version v with Some _ => true | None => false end.

(** [parseInt(s, 10)] on a string of digits, most significant first. *)
Fixpoint digits_to_N (acc : N) (s : string) : N :=
  match s with
  | String c r => digits_to_N (acc * 10 + digit_value c) r
  | EmptyString => acc
  end.

Definition parseInt10 (s : string) : N := digits_to_N 0 s.

Record Parsed := { major : N; minor : N }.

(** [x || d] on a number: zero is falsy. *)
Definition or_default (x d : N) : N := if (x =? 0)%N then d else x.

Definition parseVersion (v : string) : Parsed :=
  match match_version v with
  | None => {| major := 1; minor := 0 |}
  | Some (a, b) =>
      {| major := or_default (parseInt10 a) 1;
         minor := or_default (parseInt10 b) 0 |}
  end.

Definition bumpVersion (v : string) : string :=
  let p := parseVersion v in
  if (minor p <? 9)%N
  then pretty (major p) +:+ "." +:+ pretty (minor p + 1)%N
  else pretty (major p + 1)%N +:+ ".0".

(** The language of the pattern, stated without reference to the matcher. *)
Fixpoint all_digits (s : string) : Prop :=
  match s with
  | String c r => is_digit c = true ∧ all_digits r
  | EmptyString => True
  end.

Definition version_format (v : string) : Prop :=
  ∃ a b, a ≠ "" ∧ b ≠ "" ∧ all_digits a ∧ all_digits b ∧ v = a +:+ "." +:+ b.

End Version.

(** ** The data model *)

Module Data.

Record TextItem := { id : string; content : string; important : bool }.

(** [done] is an optional property: [None] is a step object without the
    key, which is how new steps are created. [index] is a JavaScript
    number. *)
Record StepData := {
  index : Q;
  photos : list string;
  texts : list TextItem;
  done : option bool }.

Record ProcessData := {
  name : string;
  version : string;
  createdAt : string;
  steps : list StepData }.

#[global] Instance Q_eq_dec : EqDecision Q.
Proof. solve_decision. Defined.
#[global] Instance TextItem_eq_dec : EqDecision TextItem.
Proof. solve_decision. Defined.
#[global] Instance StepData_eq_dec : EqDecision StepData.
Proof. solve_decision. Defined.
#[global] Instance ProcessData_eq_dec : EqDecision ProcessData.
Proof. solve_decision. Defined.

Definition set_index (i : Q) (s : StepData) : StepData :=
  {| index := i; photos := photos s; texts := texts s; done := done s |}.

Definition set_content (ph : list string) (tx : list TextItem) (s : StepData)
  : StepData :=
  {| index := index s; photos := ph; texts := tx; done := done s |}.

Definition set_done (d : bool) (s : StepData) : StepData :=
  {| index := index s; photos := photos s; texts := texts s; done := Some d |}.

Definition set_steps (l : list StepData) (p : ProcessData) : ProcessData :=
  {| name := name p; version := version p; createdAt := createdAt p;
     steps := l |}.

Definition set_version (v : string) (p : ProcessData) : ProcessData :=
  {| name := name p; version := v; createdAt := createdAt p;
     steps := steps p |}.

(** [s.photos.length === 0 && s.texts.length === 0] *)
Definition is_empty_step (s : StepData) : bool :=
  (length (photos s) =? 0)%nat && (length (texts s) =? 0)%nat.

(** The position [i] of an array as the number [i + 1]. *)
Definition position (i : nat) : Q := inject_Z (Z.of_nat i + 1).

Definition new_step (i : nat) : StepData :=
  {| index := position i; photos := []; texts := []; done := None |}.

(** [ensureIndices]: every step is renumbered by its position. *)
Definition ensureIndices (p : ProcessData) : ProcessData :=
  set_steps (imap (fun i s => set_index (position i) s) (steps p)) p.

End Data.

(** ** Application state and event handlers *)

Module App.
Import Data.

(** [lastSnapshot] holds the object that [JSON.stringify] is applied to:
    serialisation is injective on these objects (fixed key order, strings
    escaped, an absent [done] omitted), so comparing the strings is
    comparing the objects. [processRef] stands for the identity of the
    object in [process]: every [setProcess] stores a new object, which is
    what the dependency list of the editor effect observes. *)
Record State := {
  process : option ProcessData;
  nameInput : string;
  versionInput : string;
  currentIndex : nat;
  pendingPhotos : list string;
  pendingTexts : list TextItem;
  textDraft : string;
  textImportant : bool;
  lastSnapshot : option ProcessData;
  finalized : bool;
  alerts : list string;
  processRef : nat }.

Definition initial : State :=
  {| process := None; nameInput := ""; versionInput := "1.0";
     currentIndex := 0; pendingPhotos := []; pendingTexts := [];
     textDraft := ""; textImportant := false;
     lastSnapshot := None; finalized := false; alerts := [];
     processRef := 0 |}.

(** The setters of [useState]. *)
Definition setProcess (p : option ProcessData) (st : State) : State :=
  {| process := p; nameInput := nameInput st; versionInput := versionInput st;
     currentIndex := currentIndex st; pendingPhotos := pendingPhotos st;
     pendingTexts := pendingTexts st; textDraft := textDraft st;
     textImportant := textImportant st; lastSnapshot := lastSnapshot st;
     finalized := finalized st; alerts := alerts st;
     processRef := S (processRef st) |}.

Definition setNameInput (v : string) (st : State) : State :=
  {| process := process st; nameInput := v; versionInput := versionInput st;
     currentIndex := currentIndex st; pendingPhotos := pendingPhotos st;
     pendingTexts := pendingTexts st; textDraft := textDraft st;
     textImportant := textImportant st; lastSnapshot := lastSnapshot st;
     finalized := finalized st; alerts := alerts st;
     processRef := processRef st |}.

Definition setVersionInput (v : string) (st : State) : State :=
  {| process := process st; nameInput := nameInput st; versionInput := v;
     currentIndex := currentIndex st; pendingPhotos := pendingPhotos st;
     pendingTexts := pendingTexts st; textDraft := textDraft st;
     textImportant := textImportant st; lastSnapshot := lastSnapshot st;
     finalized := finalized st; alerts := alerts st;
     processRef := processRef st |}.

Definition setCurrentIndex (i : nat) (st : State) : State :=
  {| process := process st; nameInput := nameInput st;
     versionInput := versionInput st;
     currentIndex := i; pendingPhotos := pendingPhotos st;
     pendingTexts := pendingTexts st; textDraft := textDraft st;
     textImportant := textImportant st; lastSnapshot := lastSnapshot st;
     finalized := finalized st; alerts := alerts st;
     processRef := processRef st |}.

Definition setPendingPhotos (l : list string) (st : State) : State :=
  {| process := process st; nameInput := nameInput st;
     versionInput := versionInput st;
     currentIndex := currentIndex st; pendingPhotos := l;
     pendingTexts := pendingTexts st; textDraft := textDraft st;
     textImportant := textImportant st; lastSnapshot := lastSnapshot st;
     finalized := finalized st; alerts := alerts st;
     processRef := processRef st |}.

Definition setPendingTexts (l : list TextItem) (st : State) : State :=
  {| process := process st; nameInput := nameInput st;
     versionInput := versionInput st;
     currentIndex := currentIndex st; pendingPhotos := pendingPhotos st;
     pendingTexts := l; textDraft := textDraft st;
     textImportant := textImportant st; lastSnapshot := lastSnapshot st;
     finalized := finalized st; alerts := alerts st;
     processRef := processRef st |}.

Definition setTextDraft (v : string) (st : State) : State :=
  {| process := process st; nameInput := nameInput st;
     versionInput := versionInput st;
     currentIndex := currentIndex st; pendingPhotos := pendingPhotos st;
     pendingTexts := pendingTexts st; textDraft := v;
     textImportant := textImportant st; lastSnapshot := lastSnapshot st;
     finalized := finalized st; alerts := alerts st;
     processRef := processRef st |}.

Definition setTextImportant (b : bool) (st : State) : State :=
  {| process := process st; nameInput := nameInput st;
     versionInput := versionInput st;
     currentIndex := currentIndex st; pendingPhotos := pendingPhotos st;
     pendingTexts := pendingTexts st; textDraft := textDraft st;
     textImportant := b; lastSnapshot := lastSnapshot st;
     finalized := finalized st; alerts := alerts st;
     processRef := processRef st |}.

Definition setLastSnapshot (s : option ProcessData) (st : State) : State :=
  {| process := process st; nameInput := nameInput st;
     versionInput := versionInput st;
     currentIndex := currentIndex st; pendingPhotos := pendingPhotos st;
     pendingTexts := pendingTexts st; textDraft := textDraft st;
     textImportant := textImportant st; lastSnapshot := s;
     finalized := finalized st; alerts := alerts st;
     processRef := processRef st |}.

Definition setFinalized (b : bool) (st : State) : State :=
  {| process := process st; nameInput := nameInput st;
     versionInput := versionInput st;
     currentIndex := currentIndex st; pendingPhotos := pendingPhotos st;
     pendingTexts := pendingTexts st; textDraft := textDraft st;
     textImportant := textImportant st; lastSnapshot := lastSnapshot st;
     finalized := b; alerts := alerts st; processRef := processRef st |}.

Definition alert (msg : string) (st : State) : State :=
  {| process := process st; nameInput := nameInput st;
     versionInput := versionInput st;
     currentIndex := currentIndex st; pendingPhotos := pendingPhotos st;
     pendingTexts := pendingTexts st; textDraft := textDraft st;
     textImportant := textImportant st; lastSnapshot := lastSnapshot st;
     finalized := finalized st; alerts := alerts st ++ [msg];
     processRef := processRef st |}.

(** [String.prototype.trim] on the ASCII white space. *)
Definition is_space (c : ascii) : bool :=
  match nat_of_ascii c with
  | 9 | 10 | 11 | 12 | 13 | 32 => true
  | _ => false
  end%nat.

Fixpoint trim_start (s : string) : string :=
  match s with
  | String c r => if is_space c then trim_start r else s
  | EmptyString => EmptyString
  end.

Fixpoint trim_end (s : string) : string :=
  match s with
  | String c r =>
      match trim_end r with
      | EmptyString => if is_space c then EmptyString else String c EmptyString
      | r' => String c r'
      end
  | EmptyString => EmptyString
  end.

Definition trim (s : string) : string := trim_end (trim_start s).

(** The effect on [[currentIndex, process]]: the editor buffers are
    reloaded from the current step, when there is one. *)
Definition editorEffect (st : State) : State :=
  match process st with
  | None => st
  | Some p =>
      match steps p !! currentIndex st with
      | Some step =>
          setTextImportant false (setTextDraft ""
            (setPendingTexts (texts step)
              (setPendingPhotos (photos step) st)))
      | None => st
      end
  end.

Definition clearEditor (st : State) : State :=
  setTextImportant false (setTextDraft ""
    (setPendingTexts [] (setPendingPhotos [] st))).

Definition startNew (now : string) (st : State) : State :=
  if decide (trim (nameInput st) = "")
  then alert "Bitte einen Prozessnamen eingeben." st
  else
    let v := trim (versionInput st) in
    let p := {| name := trim (nameInput st);
                version := if decide (v = "") then "1.0" else v;
                createdAt := now;
                steps := [new_step 0] |} in
    setFinalized false (setLastSnapshot None
      (clearEditor (setCurrentIndex 0 (setProcess (Some p) st)))).

(** The buffers are written into the step at [currentIndex], if any. *)
Definition write_pending (st : State) (p : ProcessData) : ProcessData :=
  set_steps
    (alter (set_content (pendingPhotos st) (pendingTexts st))
           (currentIndex st) (steps p)) p.

(** [commitStepEdits]; a mutator that throws ([None]) aborts the handler
    before any setter is called. *)
Definition commitStepEdits
    (mutator : ProcessData → option ProcessData) (st : State) : option State :=
  match process st with
  | None => Some st
  | Some p =>
      match mutator (write_pending st p) with
      | None => None
      | Some draft =>
          Some (setFinalized false (setProcess (Some (ensureIndices draft)) st))
      end
  end.

Definition addText (fresh : string) (st : State) : State :=
  let c := trim (textDraft st) in
  if decide (c = "") then st
  else
    let item := {| id := fresh; content := c;
                   important := textImportant st |} in
    setTextImportant false (setTextDraft ""
      (setPendingTexts (pendingTexts st ++ [item]) st)).

Definition removeText (i : string) (st : State) : State :=
  setPendingTexts
    (filter (fun t => id t ≠ i) (pendingTexts st)) st.

Definition toggleImportant (i : string) (st : State) : State :=
  setPendingTexts
    ((fun t => if decide (id t = i)
               then {| id := id t; content := content t;
                       important := negb (important t) |}
               else t) <$> pendingTexts st) st.

(** [onPhotoUpload] once the files have been read as data URLs. *)
Definition onPhotoUpload (urls : list string) (st : State) : State :=
  setPendingPhotos (pendingPhotos st ++ urls) st.

Definition removePhotoAt (i : nat) (st : State) : State :=
  setPendingPhotos (delete i (pendingPhotos st)) st.

Definition canFinishStep (st : State) : bool :=
  (0 <? length (pendingPhotos st))%nat && (0 <? length (pendingTexts st))%nat.

(** The mutator of [finishStep]: assigning [done] on a missing step
    throws. *)
Definition finishStep_mutator (i : nat) (draft : ProcessData)
  : option ProcessData :=
  match steps draft !! i with
  | None => None
  | Some _ =>
      let l := alter (set_done true) i (steps draft) in
      Some (set_steps (l ++ [new_step (length l)]) draft)
  end.

Definition finishStep (st : State) : State :=
  match process st with
  | None => st
  | Some _ =>
      if canFinishStep st then
        match commitStepEdits (finishStep_mutator (currentIndex st)) st with
        | None => st
        | Some st' => clearEditor (setCurrentIndex (S (currentIndex st)) st')
        end
      else alert "Jeder Schritt braucht mindestens ein Foto und einen Text." st
  end.

Definition backStep (st : State) : State :=
  match currentIndex st with
  | O => st
  | S i =>
      match commitStepEdits Some st with
      | None => st
      | Some st' => setCurrentIndex i st'
      end
  end.

(** The last step is cut off when it is empty. *)
Definition drop_last_empty (p : ProcessData) : ProcessData :=
  match last (steps p) with
  | Some l =>
      if is_empty_step l
      then set_steps (take (length (steps p) - 1) (steps p)) p
      else p
  | None => p
  end.

(** The object whose serialisation is the snapshot. *)
Definition snapshot (draft : ProcessData) : ProcessData :=
  {| name := name draft; version := "X"; createdAt := "X";
     steps := steps draft |}.

Definition finishProcess (st : State) : State :=
  match process st with
  | None => st
  | Some p =>
      let draft := ensureIndices (drop_last_empty (write_pending st p)) in
      let snap := snapshot draft in
      let draft :=
        match lastSnapshot st with
        | None => set_version (Version.bumpVersion (version draft)) draft
        | Some old =>
            if decide (old ≠ snap)
            then set_version (Version.bumpVersion (version draft)) draft
            else draft
        end in
      setFinalized true (setLastSnapshot (Some snap)
        (setProcess (Some draft) st))
  end.

End App.

(** ** Saving and loading *)

Module Persist.
Import Data App.

#[local] Set Warnings "-register-all".

(** What [JSON.parse] returns. An object is the list of its own
    properties; a key is looked up at its first occurrence. *)
Inductive json :=
| JNull
| JBool (b : bool)
| JNum (q : Q)
| JStr (s : string)
| JArr (l : list json)
| JObj (fields : list (string * json)).

#[local] Set Warnings "register-all".

Fixpoint assoc (k : string) (l : list (string * json)) : option json :=
  match l with
  | (k', v) :: r => if decide (k = k') then Some v else assoc k r
  | [] => None
  end.

(** [v.k] on a value that is not [null]; [None] is [undefined]. The keys
    the program reads are no properties of strings, numbers, booleans or
    arrays. With [null] this is [v?.k]. *)
Definition get (k : string) (v : json) : option json :=
  match v with
  | JObj fields => assoc k fields
  | _ => None
  end.

Definition truthy (v : option json) : bool :=
  match v with
  | None | Some JNull => false
  | Some (JBool b) => b
  | Some (JNum q) => negb (Qeq_bool q 0)
  | Some (JStr s) => if decide (s = "") then false else true
  | Some (JArr _) | Some (JObj _) => true
  end.

Section Coercions.

(** [Number.prototype.toString] on a number that is not an integer of
    magnitude below 10^21 (those are printed as decimal digits). *)
Variable fraction_toString : Q → string.

Definition Number_toString (q : Q) : string :=
  match Qred q with
  | Qmake z 1 =>
      if (Z.abs z <? 10 ^ 21)%Z then pretty z else fraction_toString q
  | _ => fraction_toString q
  end.

(** [String(v)] *)
Fixpoint js_String (v : json) : string :=
  match v with
  | JNull => "null"
  | JBool true => "true"
  | JBool false => "false"
  | JNum q => Number_toString q
  | JStr s => s
  | JArr l =>
      (fix join (l : list json) : string :=
         let elem x := match x with JNull => "" | _ => js_String x end in
         match l with
         | [] => ""
         | [x] => elem x
         | x :: r => elem x +:+ "," +:+ join r
         end) l
  | JObj _ => "[object Object]"
  end.

(** [String(undefined)] included. *)
Definition js_String_opt (v : option json) : string :=
  match v with Some v => js_String v | None => "undefined" end.

(** One element of [s.texts]; [uid] is what [uid()] returns if called. *)
Definition load_text (uid : string) (t : json) : TextItem :=
  {| id := if truthy (get "id" t) then js_String_opt (get "id" t) else uid;
     content := if truthy (get "content" t)
                then js_String_opt (get "content" t) else "";
     important := truthy (get "important" t) |}.

(** One element of [obj.steps] at position [i]; reading a property of
    [null] throws ([None]). *)
Definition load_step (uid : nat → nat → string) (i : nat) (s : json)
  : option StepData :=
  match s with
  | JNull => None
  | _ =>
      Some {| index := match get "index" s with
                       | Some (JNum q) => q
                       | _ => position i
                       end;
              photos := match get "photos" s with
                        | Some (JArr l) => js_String <$> l
                        | _ => []
                        end;
              texts := match get "texts" s with
                       | Some (JArr l) => imap (fun j t => load_text (uid i j) t) l
                       | _ => []
                       end;
              done := Some (truthy (get "done" s)) |}
  end.

(** The outcome of the body of [loadProcess] on a parsed payload.
    [Untyped]: the checks pass and the code stores the payload's
    [version] or [createdAt] unchanged although it is no string, a value
    the type [ProcessData] does not have. *)
Inductive Normalized :=
| Loaded (p : ProcessData)
| Untyped
| Invalid
| Thrown.

Definition normalize (now : string) (uid : nat → nat → string) (obj : json)
  : Normalized :=
  if negb (truthy (Some obj)) || negb (truthy (get "name" obj)) then Invalid
  else
    match get "steps" obj with
    | Some (JArr l) =>
        match mapM (fun r => r) (imap (load_step uid) l) with
        | None => Thrown
        | Some ss =>
            let ver :=
              if Version.test_version (js_String_opt (get "version" obj))
              then match get "version" obj with
                   | Some (JStr v) => Some v
                   | _ => None
                   end
              else Some "1.0" in
            let created :=
              if truthy (get "createdAt" obj)
              then match get "createdAt" obj with
                   | Some (JStr c) => Some c
                   | _ => None
                   end
              else Some now in
            match ver, created with
            | Some v, Some c =>
                Loaded (ensureIndices
                  {| name := js_String_opt (get "name" obj);
                     version := v; createdAt := c; steps := ss |})
            | _, _ => Untyped
            end
        end
    | _ => Invalid
    end.

End Coercions.

(** The file handed to [loadProcess]. *)
Inductive LoadInput :=
| NoFile
| Unparsable
| Payload (obj : json).

(** [loadProcess]; [None] where the outcome is [Untyped]. *)
Definition loadProcess (fraction_toString : Q → string)
    (now : string) (uid : nat → nat → string)
    (file : LoadInput) (st : State) : option State :=
  match file with
  | NoFile => Some st
  | Unparsable => Some (alert "Konnte die Datei nicht laden." st)
  | Payload obj =>
      match normalize fraction_toString now uid obj with
      | Invalid => Some (alert "Ungültige Datei." st)
      | Thrown => Some (alert "Konnte die Datei nicht laden." st)
      | Untyped => None
      | Loaded p =>
          let first := steps p !! 0%nat in
          Some (setFinalized false (setLastSnapshot None
            (setTextImportant false (setTextDraft ""
              (setPendingTexts (from_option texts [] first)
                (setPendingPhotos (from_option photos [] first)
                  (setCurrentIndex 0 (setProcess (Some p) st))))))))
      end
  end.

(** The value whose text [saveProcess] writes: [JSON.stringify(process)],
    read back by [JSON.parse]. *)
Definition text_json (t : TextItem) : json :=
  JObj [("id", JStr (id t)); ("content", JStr (content t));
        ("important", JBool (important t))].

Definition step_json (s : StepData) : json :=
  JObj ([("index", JNum (index s));
         ("photos", JArr (JStr <$> photos s));
         ("texts", JArr (text_json <$> texts s))]
        ++ match done s with Some d => [("done", JBool d)] | None => [] end).

Definition process_json (p : ProcessData) : json :=
  JObj [("name", JStr (name p)); ("version", JStr (version p));
        ("createdAt", JStr (createdAt p));
        ("steps", JArr (step_json <$> steps p))].

Definition saveProcess (st : State) : option json :=
  match process st with
  | None => None
  | Some p => Some (process_json p)
  end.

End Persist.

(** ** Events: a handler, then the editor effect *)

Module Events.
Import Data App Persist.

Inductive Event :=
| TypeName (v : string)
| TypeVersion (v : string)
| ClickStartNew (now : string)
| TypeText (v : string)
| CheckImportant (b : bool)
| ClickAddText (fresh : string)
| ClickRemoveText (i : string)
| ClickToggleImportant (i : string)
| UploadPhotos (urls : list string)
| ClickRemovePhoto (i : nat)
| ClickFinishStep
| ClickBackStep
| ClickFinishProcess
| ChooseFile (file : LoadInput) (now : string) (uid : nat → nat → string).

Definition handle (fraction_toString : Q → string) (ev : Event) (st : State)
  : option State :=
  match ev with
  | TypeName v => Some (setNameInput v st)
  | TypeVersion v => Some (setVersionInput v st)
  | ClickStartNew now => Some (startNew now st)
  | TypeText v => Some (setTextDraft v st)
  | CheckImportant b => Some (setTextImportant b st)
  | ClickAddText fresh => Some (addText fresh st)
  | ClickRemoveText i => Some (removeText i st)
  | ClickToggleImportant i => Some (toggleImportant i st)
  | UploadPhotos urls => Some (onPhotoUpload urls st)
  | ClickRemovePhoto i => Some (removePhotoAt i st)
  | ClickFinishStep => Some (finishStep st)
  | ClickBackStep => Some (backStep st)
  | ClickFinishProcess => Some (finishProcess st)
  | ChooseFile file now uid => loadProcess fraction_toString now uid file st
  end.

(** After the handler the effect runs if [process] holds a new object or
    [currentIndex] has changed. *)
Definition dispatch (fraction_toString : Q → string) (ev : Event) (st : State)
  : option State :=
  st' ← handle fraction_toString ev st;
  Some (if decide (processRef st' = processRef st
                   ∧ currentIndex st' = currentIndex st)
        then st' else editorEffect st').

Fixpoint run (fraction_toString : Q → string) (evs : list Event) (st : State)
  : option State :=
  match evs with
  | [] => Some st
  | ev :: r => st' ← dispatch fraction_toString ev st; run fraction_toString r st'
  end.

End Events.

(** ** The PDF export *)

Module Pdf.
Import Data.
Local Open Scope Q_scope.

(** A decoded image: [img.width], [img.height]. *)
Record Image := { width : N; height : N }.

Inductive FontStyle := normal | bold.

Definition Color : Type := nat * nat * nat.
Definition black : Color := (0%nat, 0%nat, 0%nat).
Definition red : Color := (200%nat, 0%nat, 0%nat).

(** What the export takes from jsPDF and the browser: the size of an A4
    page in points, image decoding ([None]: the promise is rejected),
    whether [pdf.addImage] accepts the data ([false]: it throws), line
    breaking under the current font, and date and number formatting. *)
Record Platform := {
  pageW : Q;
  pageH : Q;
  loadImage : string → option Image;
  addImage : string → bool;
  splitTextToSize : FontStyle → nat → string → Q → list string;
  toLocaleString : string → string;
  fraction_toString : Q → string }.

Inductive Align := AlignLeft | AlignCenter | AlignRight.

(** The call that draws, with the loop counters at the time of the call:
    step position, photo or text position, line number and line count. *)
Inductive Origin :=
| Title
| Meta
| Rule
| Heading (s : nat)
| Photo (s p : nat)
| Line (s i li n : nat)
| Footer (a : Align).

Inductive Shape :=
| Text (str : string) (a : Align)
| Picture (url : string) (w h : Q)
| Segment (x2 y2 : Q).

Record DrawOp := {
  op_page : nat;
  op_x : Q;
  op_y : Q;
  op_origin : Origin;
  op_shape : Shape;
  op_font : FontStyle;
  op_size : nat;
  op_color : Color }.

(** The document and the cursor [y] of [exportPDF]. *)
Record St := {
  pages : nat;
  page : nat;
  y : Q;
  font : FontStyle;
  size : nat;
  color : Color;
  drawColor : nat;
  ops : list DrawOp }.

(** [new jsPDF(...)]: one page, black text. *)
Definition new_doc (y0 : Q) : St :=
  {| pages := 1; page := 1; y := y0; font := normal; size := 16;
     color := black; drawColor := 0%nat; ops := [] |}.

Definition setFont (f : FontStyle) (st : St) : St :=
  {| pages := pages st; page := page st; y := y st; font := f;
     size := size st; color := color st; drawColor := drawColor st;
     ops := ops st |}.

Definition setFontSize (n : nat) (st : St) : St :=
  {| pages := pages st; page := page st; y := y st; font := font st;
     size := n; color := color st; drawColor := drawColor st;
     ops := ops st |}.

Definition setTextColor (c : Color) (st : St) : St :=
  {| pages := pages st; page := page st; y := y st; font := font st;
     size := size st; color := c; drawColor := drawColor st;
     ops := ops st |}.

Definition setDrawColor (c : nat) (st : St) : St :=
  {| pages := pages st; page := page st; y := y st; font := font st;
     size := size st; color := color st; drawColor := c;
     ops := ops st |}.

Definition setPage (p : nat) (st : St) : St :=
  {| pages := pages st; page := p; y := y st; font := font st;
     size := size st; color := color st; drawColor := drawColor st;
     ops := ops st |}.

(** [y += dy] *)
Definition advance (dy : Q) (st : St) : St :=
  {| pages := pages st; page := page st; y := y st + dy; font := font st;
     size := size st; color := color st; drawColor := drawColor st;
     ops := ops st |}.

Definition draw (o : Origin) (sh : Shape) (x y0 : Q) (c : Color) (st : St)
  : St :=
  {| pages := pages st; page := page st; y := y st; font := font st;
     size := size st; color := color st; drawColor := drawColor st;
     ops := ops st ++ [{| op_page := page st; op_x := x; op_y := y0;
                          op_origin := o; op_shape := sh;
                          op_font := font st; op_size := size st;
                          op_color := c |}] |}.

(** [pdf.text(str, x, y, {align})] *)
Definition text (o : Origin) (str : string) (a : Align) (x y0 : Q) (st : St)
  : St := draw o (Text str a) x y0 (color st) st.

Definition margin : Q := 36.

(** [addPage]: a page is appended and becomes the current one. *)
Definition addPage (st : St) : St :=
  {| pages := S (pages st); page := S (pages st); y := margin;
     font := font st; size := size st; color := color st;
     drawColor := drawColor st; ops := ops st |}.

Definition Qltb (a b : Q) : bool := negb (Qle_bool b a).

Definition quoted (s : string) : string :=
  String "034" EmptyString +:+ s +:+ String "034" EmptyString.

Record Dims := { w : Q; h : Q }.

Section Exporting.

Variable E : Platform.

Definition contentW : Q := pageW E - margin * 2.
Definition A6W : Q := 297.64.
Definition A6H : Q := 420.94.
Definition maxImgW : Q := Qmin A6W contentW.
Definition maxImgH : Q := Qmin A6H (pageH E - margin * 2).

Definition spaceLeft (st : St) : Q := pageH E - margin - y st.

Definition ensureSpace (needed : Q) (st : St) : St :=
  if Qltb (spaceLeft st) needed then addPage st else st.

(** [a / n] for a pixel count [n]; [None] is [Infinity], the quotient of
    a positive [a] by zero. *)
Definition ratio (a : Q) (n : N) : option Q :=
  if (n =? 0)%N then None else Some (a / inject_Z (Z.of_N n)).

Definition min_ext (a : option Q) (b : Q) : Q :=
  match a with Some a => Qmin a b | None => b end.

(** [Math.min(maxImgW / img.width, maxImgH / img.height, 1)] *)
Definition scale (img : Image) : Q :=
  min_ext (ratio maxImgW (width img))
          (min_ext (ratio maxImgH (height img)) 1).

Definition scaleDims (img : Image) : Dims :=
  {| w := inject_Z (Z.of_N (width img)) * scale img;
     h := inject_Z (Z.of_N (height img)) * scale img |}.

Definition num (q : Q) : string :=
  Persist.Number_toString (fraction_toString E) q.

(** The look-ahead before a heading. *)
Definition reserve (step : StepData) : Q :=
  20 + match photos step with
       | [] => 40
       | p0 :: _ =>
           match loadImage E p0 with
           | Some img0 => h (scaleDims img0) + 12
           | None => 120
           end
       end.

(** One photo, in its [try]: a photo that does not decode is skipped; if
    [pdf.addImage] throws, the page break of [ensureSpace] has happened
    and nothing else. *)
Definition drawPhoto (s p : nat) (dataUrl : string) (st : St) : St :=
  match loadImage E dataUrl with
  | None => st
  | Some im =>
      let d := scaleDims im in
      let st := ensureSpace (h d) st in
      if addImage E dataUrl then
        let st := draw (Photo s p) (Picture dataUrl (w d) (h d))
                       margin (y st) (color st) st in
        advance (h d + 12) st
      else st
  end.

Fixpoint drawPhotos (s p : nat) (l : list string) (st : St) : St :=
  match l with
  | [] => st
  | dataUrl :: r => drawPhotos s (S p) r (drawPhoto s p dataUrl st)
  end.

Fixpoint drawLines (s i li n : nat) (lines : list string) (st : St) : St :=
  match lines with
  | [] => st
  | l :: r =>
      drawLines s i (S li) n r
        (advance 14 (text (Line s i li n) l AlignLeft margin (y st) st))
  end.

Definition drawText (s i : nat) (idx : Q) (t : TextItem) (st : St) : St :=
  let label := num idx +:+ "." +:+ pretty (S i) +:+ " " in
  let full := label +:+ content t in
  let lines := splitTextToSize E (font st) (size st) full contentW in
  let blockHeight := inject_Z (Z.of_nat (length lines)) * 14 + 6 in
  let st := ensureSpace blockHeight st in
  let st := if important t
            then setFont bold (setTextColor red st)
            else setFont normal (setTextColor black st) in
  let st := drawLines s i 0 (length lines) lines st in
  advance 6 st.

Fixpoint drawTexts (s i : nat) (idx : Q) (l : list TextItem) (st : St) : St :=
  match l with
  | [] => st
  | t :: r => drawTexts s (S i) idx r (drawText s i idx t st)
  end.

Definition drawStep (s : nat) (step : StepData) (st : St) : St :=
  if is_empty_step step then st
  else
    let st := if Qltb (spaceLeft st) (reserve step) then addPage st else st in
    let st := setFontSize 13 (setFont bold st) in
    let st := text (Heading s) ("Schritt " +:+ num (index step))
                   AlignLeft margin (y st) st in
    let st := advance 20 st in
    let st := drawPhotos s 0 (photos step) st in
    let st := setFontSize 11 (setFont normal st) in
    let st := drawTexts s 0 (index step) (texts step) st in
    advance 6 st.

Fixpoint drawSteps (s : nat) (l : list StepData) (st : St) : St :=
  match l with
  | [] => st
  | step :: r => drawSteps (S s) r (drawStep s step st)
  end.

(** Name, creation date and version, and the rule below them. *)
Definition drawHeader (p : ProcessData) (st : St) : St :=
  let st := setFontSize 16 (setFont bold st) in
  let st := text Title (name p) AlignLeft margin (y st) st in
  let st := advance 18 st in
  let st := setFontSize 10 (setFont normal st) in
  let created := toLocaleString E (createdAt p) in
  let st := text Meta ("Erstellt am: " +:+ created +:+ "   |   Version: "
                       +:+ version p) AlignLeft margin (y st) st in
  let st := advance 14 st in
  let st := setDrawColor 200 st in
  let st := draw Rule (Segment (pageW E - margin) (y st)) margin (y st)
                 (drawColor st, drawColor st, drawColor st) st in
  advance 10 st.

Definition drawFooter (p : ProcessData) (total pg : nat) (st : St) : St :=
  let st := setPage pg st in
  let st := setFontSize 9 (setFont normal st) in
  let created := toLocaleString E (createdAt p) in
  let st := text (Footer AlignLeft) ("Erstellt am: " +:+ created)
                 AlignLeft margin (pageH E - 16) st in
  let st := text (Footer AlignCenter) ("Version: " +:+ version p)
                 AlignCenter (pageW E / 2) (pageH E - 16) st in
  text (Footer AlignRight)
       ("Seite " +:+ pretty pg +:+ " von " +:+ pretty total)
       AlignRight (pageW E - margin) (pageH E - 16) st.

(** [for (let p = 1; p <= total; p++)] *)
Definition drawFooters (p : ProcessData) (st : St) : St :=
  let total := pages st in
  foldl (fun st pg => drawFooter p total pg st) st (seq 1 total).

(** The document before the footer pass. *)
Definition layout (p : ProcessData) : St :=
  drawSteps 0 (steps p) (drawHeader p (new_doc margin)).

(** The document [exportPDF] saves for a finalized process. *)
Definition render (p : ProcessData) : St := drawFooters p (layout p).

(** [exportPDF]: nothing without a process, an alert before
    finalisation, else the document. *)
Definition exportPDF (st : App.State) : App.State * option St :=
  match App.process st with
  | None => (st, None)
  | Some p =>
      if App.finalized st then (st, Some (render p))
      else (App.alert
              ("Bitte zuerst " +:+ quoted "Prozess beenden"
               +:+ " drücken, dann PDF exportieren.") st, None)
  end.

End Exporting.

End Pdf.

(** ** The first version of the application ([App.tsx]) *)

Module Legacy.

(** [v.split(".")]: never empty. *)
Fixpoint split_dots (cur : string) (s : string) : list string :=
  match s with
  | EmptyString => [String.rev cur]
  | String c r =>
      if decide (c = "."%char) then String.rev cur :: split_dots EmptyString r
      else split_dots (String c cur) r
  end.

Definition split (s : string) : list string := split_dots EmptyString s.

Definition hex_value (c : ascii) : option N :=
  let n := nat_of_ascii c in
  if Version.is_digit c then Some (N.of_nat (n - 48))
  else if (97 <=? n)%nat && (n <=? 102)%nat then Some (N.of_nat (n - 87))
  else if (65 <=? n)%nat && (n <=? 70)%nat then Some (N.of_nat (n - 55))
  else None.

Definition dec_value (c : ascii) : option N :=
  if Version.is_digit c then Some (Version.digit_value c) else None.

(** The value of the longest prefix of digits; [None] if it is empty. *)
Fixpoint digits_prefix (value : ascii → option N) (radix : N)
    (acc : option N) (s : string) : option N :=
  match s with
  | String c r =>
      match value c with
      | Some d =>
          digits_prefix value radix (Some (from_option id 0%N acc * radix + d)%N) r
      | None => acc
      end
  | EmptyString => acc
  end.

(** [parseInt(s)] without a radix; [None] is [NaN]. *)
Definition parseInt (s : string) : option Z :=
  let s := App.trim_start s in
  let (neg, s) :=
    match s with
    | String "-" r => (true, r)
    | String "+" r => (false, r)
    | _ => (false, s)
    end in
  let magnitude :=
    match s with
    | String "0" (String "x" r) | String "0" (String "X" r) =>
        digits_prefix hex_value 16 None r
    | _ => digits_prefix dec_value 10 None s
    end in
  match magnitude with
  | Some n => Some (if neg then - Z.of_N n else Z.of_N n)%Z
  | None => None
  end.

Definition show (x : option Z) : string :=
  match x with Some z => pretty z | None => "NaN" end.

Definition bumpVersion (ver : string) : string :=
  let parts := parseInt <$> split ver in
  let major := mjoin (parts !! 0%nat) in
  let minor := mjoin (parts !! 1%nat) in
  match minor with
  | Some m =>
      if (m <? 9)%Z
      then show major +:+ "." +:+ pretty (m + 1)%Z
      else show (Z.succ <$> major) +:+ ".0"
  | None => show (Z.succ <$> major) +:+ ".0"
  end.

End Legacy.

(** ** Records that survive a save and a load *)

Module RoundTrip.
Import Data.

(** What loading makes of a saved record: a version outside the pattern
    becomes "1.0" and every step carries a [done] flag, [false] where the
    saved step had none. *)
Definition reloaded_step (s : StepData) : StepData :=
  {| index := index s; photos := photos s; texts := texts s;
     done := Some (default false (done s)) |}.

Definition reloaded (p : ProcessData) : ProcessData :=
  {| name := name p;
     version := if Version.test_version (version p) then version p else "1.0";
     createdAt := createdAt p;
     steps := reloaded_step <$> steps p |}.

(** Every step is numbered by its position. *)
Definition positional (l : list StepData) : Prop :=
  ∀ i s, l !! i = Some s → index s = position i.

(** No text item has an empty id. *)
Definition ids_ok (l : list StepData) : Prop :=
  Forall (fun s => Forall (fun t => id t ≠ "") (texts s)) l.

(** The records the editor builds: name, creation date and text ids are
    not empty and the steps are numbered by position. *)
Definition storable (p : ProcessData) : Prop :=
  name p ≠ "" ∧ createdAt p ≠ "" ∧ ids_ok (steps p) ∧ positional (steps p).

(** The state while the editor is used: a held record is storable and so
    are the ids in the text buffer. *)
Definition clean (st : App.State) : Prop :=
  (∀ p, App.process st = Some p → storable p)
  ∧ Forall (fun t => id t ≠ "") (App.pendingTexts st).

(** The events of the editor, with a clock and an id generator that
    return non-empty strings; loading a file is not among them. *)
Definition editor_event (ev : Events.Event) : Prop :=
  match ev with
  | Events.ClickStartNew now => now ≠ ""
  | Events.ClickAddText fresh => fresh ≠ ""
  | Events.ChooseFile _ _ _ => False
  | _ => True
  end.

End RoundTrip.

(** ** The block sequence of a document *)

Module Blocks.
Import Data Pdf.









End Blocks.

(** ** Atomic placement *)

Module Atomic.
Import Data Pdf.
Local Open Scope Q_scope.









End Atomic.

(** ** Pages drawn on *)

Module Paging.
Import Data Pdf.

(** From a state on its last page, [st'] is reached by drawing on pages
    from [P] on only, and is again on its last page. *)
Definition draws_from (P : nat) (st st' : St) : Prop :=
  page st = pages st → (P ≤ page st)%nat →
  page st' = pages st' ∧ (P ≤ page st')%nat
  ∧ ∃ new, ops st' = ops st ++ new ∧ Forall (fun o => (P ≤ op_page o)%nat) new.

(** What [drawStep] does after the heading. *)
Definition after_heading (E : Platform) (s : nat) (step : StepData) (st : St)
  : St :=
  advance 6
    (drawTexts E s 0 (index step) (texts step)
      (setFontSize 11 (setFont normal
        (drawPhotos E s 0 (photos step) (advance 20 st))))).

End Paging.

(** ** A sample platform and sample records *)

Module Sample.
Import Data Pdf.

(** An A4 page in points; every image decodes to 1000 x 500 pixels except
    the one named "broken", jsPDF refuses the one named "webp"; no text is
    wrapped. *)
Definition a4 : Platform :=
  {| pageW := 595.28;
     pageH := 841.89;
     loadImage := fun url =>
       if decide (url = "broken") then None
       else Some {| width := 1000; height := 500 |};
     addImage := fun url => if decide (url = "webp") then false else true;
     splitTextToSize := fun _ _ str _ => [str];
     toLocaleString := fun iso => iso;
     fraction_toString := fun _ => "" |}.

Definition warning : TextItem :=
  {| id := "a1"; content := "Handschuhe tragen"; important := true |}.

Definition remark : TextItem :=
  {| id := "a2"; content := "Karton öffnen"; important := false |}.

(** One step whose only text is marked important. *)
Definition one_warning : ProcessData :=
  {| name := "Wareneingang"; version := "1.1"; createdAt := "2024-01-01";
     steps := [{| index := 1; photos := []; texts := [warning];
                  done := None |}] |}.

(** A step that ends with an important text, followed by a plain step. *)
Definition warning_then_remark : ProcessData :=
  {| name := "Wareneingang"; version := "1.1"; createdAt := "2024-01-01";
     steps := [{| index := 1; photos := ["foto"]; texts := [warning];
                  done := Some true |};
               {| index := 2; photos := []; texts := [remark];
                  done := None |}] |}.


End Sample.

(** ** What the page shows *)

Module View.
Import Data App.


(** The steps the preview lists: those with a photo or a text. *)
Definition preview (p : ProcessData) : list StepData :=
  filter (fun s => is_empty_step s = false) (steps p).

End View.

(** ** States the application can be in *)

Module Reach.
Import Data App.



(** The numbering [ensureIndices] gives a list of steps. *)
Definition renumber (l : list StepData) : list StepData :=
  imap (fun i s => set_index (position i) s) l.





End Reach.

(** ** Sample sessions *)

Module Sessions.
Import Data App Events.

(** A process is created and its first step is filled. *)
Definition filling : list Event :=
  [TypeName "Wareneingang"; ClickStartNew "2024-01-01";
   UploadPhotos ["foto"]; TypeText " Karton öffnen ";
   ClickAddText "a1"].

(** The same, then the step is finished. *)
Definition one_step : list Event := filling ++ [ClickFinishStep].

(** The same, then the process is finalized. *)
Definition finished : list Event := one_step ++ [ClickFinishProcess].

Definition after (evs : list Event) : State :=
  default initial (run (Pdf.fraction_toString Sample.a4) evs initial).

Definition after_filling : State := Eval vm_compute in after filling.

Definition after_one_step : State := Eval vm_compute in after one_step.

Definition record_after_one_step : ProcessData :=
  Eval vm_compute in default Sample.one_warning (process after_one_step).

Definition after_finished : State := Eval vm_compute in after finished.

(** A file with a version outside the pattern and two steps, the second
    without any property. *)
Definition payload : Persist.json :=
  Persist.JObj
    [("name", Persist.JStr "Versand"); ("version", Persist.JStr "2");
     ("steps", Persist.JArr
        [Persist.JObj [("photos", Persist.JArr [Persist.JStr "foto"])];
         Persist.JObj []])].

Definition no_uid (i j : nat) : string := "u".

Definition loaded : ProcessData :=
  Eval vm_compute in
    match Persist.normalize (Pdf.fraction_toString Sample.a4)
            "2024-05-05" no_uid payload with
    | Persist.Loaded p => p
    | _ => Sample.one_warning
    end.

End Sessions.

(** ** Names of the downloaded files *)

Module Names.
Import Data.

Section Pattern.

(** [\s] of the pattern: which characters are white space. *)
Variable white : ascii → bool.

(** [s.replace(/\s+/g, "_")]: every maximal run of white space becomes
    one underscore. [in_run]: the character before was white space. *)
Fixpoint replace_runs (in_run : bool) (s : string) : string :=
  match s with
  | String c r =>
      if white c
      then if in_run then replace_runs true r
           else String "_" (replace_runs true r)
      else String c (replace_runs false r)
  | EmptyString => EmptyString
  end.

Definition underscored (s : string) : string := replace_runs false s.

(** The file name of [saveProcess]. *)
Definition saveName (p : ProcessData) : string :=
  underscored (name p) +:+ "_Prozess.json".

(** The file name of [exportPDF]. *)
Definition pdfName (p : ProcessData) : string :=
  underscored (name p) +:+ "_Prozess.pdf".

(** No character of [s] is white space. *)
Fixpoint solid (s : string) : Prop :=
  match s with
  | String c r => white c = false ∧ solid r
  | EmptyString => True
  end.

End Pattern.

End Names.

(** ** Reading order on the pages *)

Module Flow.
Import Data Pdf.
Local Open Scope Q_scope.

(** By how much [exportPDF] moves [y] down after a drawing operation,
    before it draws again. *)
Definition room_of (o : Origin) (sh : Shape) : Q :=
  match o, sh with
  | Title, _ => 18
  | Meta, _ => 14
  | Rule, _ => 10
  | Heading _, _ => 20
  | Photo _ _, Picture _ _ ht => ht + 12
  | Line _ _ _ _, _ => 14
  | _, _ => 0
  end.

Definition room (o : DrawOp) : Q := room_of (op_origin o) (op_shape o).

(** [o2] is on a later page than [o1], or on the same page and below the
    room of [o1]. *)
Definition follows (o1 o2 : DrawOp) : Prop :=
  (op_page o1 < op_page o2)%nat
  ∨ (op_page o1 = op_page o2 ∧ op_y o1 + room o1 <= op_y o2).

(** What is drawn later follows what is drawn earlier. *)
Definition in_order (tr : list DrawOp) : Prop :=
  ∀ i j o1 o2, (i < j)%nat → tr !! i = Some o1 → tr !! j = Some o2 →
    follows o1 o2.

(** [o] lies before the cursor of [st]. *)
Definition before (st : St) (o : DrawOp) : Prop :=
  (1 ≤ op_page o)%nat ∧ 0 <= room o
  ∧ ((op_page o < page st)%nat
     ∨ (op_page o = page st ∧ op_y o + room o <= y st)).

Definition content (o : DrawOp) : Prop :=
  match op_origin o with Footer _ => False | _ => True end.

(** The invariant of the layout: the cursor is on the last page and
    below everything drawn, which is content drawn in order. *)
Definition flowing (st : St) : Prop :=
  page st = pages st ∧ (1 ≤ page st)%nat
  ∧ in_order (ops st) ∧ Forall (before st) (ops st)
  ∧ Forall content (ops st).

(** The page numbers of a document: the texts of the right footers and
    the pages they are on. *)
Definition page_number (o : DrawOp) : option (nat * string) :=
  match op_origin o, op_shape o with
  | Footer AlignRight, Text str _ => Some (op_page o, str)
  | _, _ => None
  end.

Definition page_numbers (st : St) : list (nat * string) :=
  omap page_number (ops st).

End Flow.

(** ** What a document looks like *)

Module Look.
Import Data Pdf.

(** A drawing operation without the loop counters it was drawn at. *)
Definition strip (o : DrawOp)
  : nat * Q * Q * Shape * FontStyle * nat * Color :=
  (op_page o, op_x o, op_y o, op_shape o, op_font o, op_size o, op_color o).

(** Two documents that look the same and continue the same way: same
    pages, same cursor and pen, same drawing operations up to the loop
    counters. *)
Definition same (st st' : St) : Prop :=
  pages st = pages st' ∧ page st = page st' ∧ y st = y st'
  ∧ font st = font st' ∧ size st = size st' ∧ color st = color st'
  ∧ drawColor st = drawColor st'
  ∧ strip <$> ops st = strip <$> ops st'.

End Look.

(** ** The first version of the application: editor and export *)

Module LegacyApp.

(** The state of [ProzessDokuApp]; steps carry no [done] flag. *)
Record State := {
  process : option Data.ProcessData;
  name : string;
  version : string;
  current : nat;
  texts : list Data.TextItem;
  textDraft : string;
  important : bool;
  photos : list string;
  finalized : bool;
  alerts : list string }.

Definition initial : State :=
  {| process := None; name := ""; version := "1.0"; current := 0;
     texts := []; textDraft := ""; important := false; photos := [];
     finalized := false; alerts := [] |}.

Definition step (i : nat) (ph : list string) (tx : list Data.TextItem)
  : Data.StepData :=
  {| Data.index := Data.position i; Data.photos := ph; Data.texts := tx;
     Data.done := None |}.

(** [arr[i] = v]: an element is replaced, or appended at the end; an
    assignment beyond the end leaves holes, which lists do not have
    ([None]). *)
Definition assign {A} (i : nat) (v : A) (l : list A) : option (list A) :=
  if decide (i < length l)%nat then Some (<[i := v]> l)
  else if decide (i = length l) then Some (l ++ [v])
  else None.

(** The draft is kept as it was typed. *)
Definition addText (fresh : string) (st : State) : State :=
  if decide (App.trim (textDraft st) = "") then st
  else
    {| process := process st; name := name st; version := version st;
       current := current st;
       texts := texts st ++ [{| Data.id := fresh;
                                Data.content := textDraft st;
                                Data.important := important st |}];
       textDraft := ""; important := false; photos := photos st;
       finalized := finalized st; alerts := alerts st |}.

Definition uploadPhotos (urls : list string) (st : State) : State :=
  {| process := process st; name := name st; version := version st;
     current := current st; texts := texts st; textDraft := textDraft st;
     important := important st; photos := photos st ++ urls;
     finalized := finalized st; alerts := alerts st |}.

Definition alert (msg : string) (st : State) : State :=
  {| process := process st; name := name st; version := version st;
     current := current st; texts := texts st; textDraft := textDraft st;
     important := important st; photos := photos st;
     finalized := finalized st; alerts := alerts st ++ [msg] |}.

Definition startProcess (now : string) (st : State) : State :=
  if decide (App.trim (name st) = "")
  then alert "Bitte Prozessnamen eingeben." st
  else
    {| process := Some {| Data.name := name st;
                          Data.version := version st;
                          Data.createdAt := now;
                          Data.steps := [step 0 [] []] |};
       name := name st; version := version st; current := 0;
       texts := []; textDraft := textDraft st; important := important st;
       photos := []; finalized := finalized st; alerts := alerts st |}.

(** [finishStep]; [None] where the assignment would leave a hole. *)
Definition finishStep (st : State) : option State :=
  match process st with
  | None => Some st
  | Some p =>
      if decide (photos st = [] ∨ texts st = [])
      then Some (alert "Jeder Schritt braucht Text und Foto." st)
      else
        l ← assign (current st)
               (step (current st) (photos st) (texts st)) (Data.steps p);
        Some {| process :=
                  Some (Data.set_steps (l ++ [step (length l) [] []]) p);
                name := name st; version := version st;
                current := S (current st); texts := [];
                textDraft := textDraft st; important := important st;
                photos := []; finalized := finalized st;
                alerts := alerts st |}
  end.

(** [backStep]: the buffers are not written back; they are loaded from
    the step before. Reading a missing step throws after the index has
    been lowered. *)
Definition backStep (st : State) : State :=
  match current st with
  | O => st
  | S i =>
      let loaded :=
        match process st with
        | Some p => Data.steps p !! i
        | None => None
        end in
      {| process := process st; name := name st; version := version st;
         current := i;
         texts := from_option Data.texts (texts st) loaded;
         textDraft := textDraft st; important := important st;
         photos := from_option Data.photos (photos st) loaded;
         finalized := finalized st; alerts := alerts st |}
  end.

(** [finishProcess] without the export it starts: the version is
    bumped every time. *)
Definition finishProcess (st : State) : State :=
  match process st with
  | None => st
  | Some p =>
      {| process :=
           Some (Data.set_version (Legacy.bumpVersion (Data.version p)) p);
         name := name st; version := version st; current := current st;
         texts := texts st; textDraft := textDraft st;
         important := important st; photos := photos st;
         finalized := true; alerts := alerts st |}
  end.

Inductive Event :=
| TypeName (v : string)
| TypeVersion (v : string)
| TypeText (v : string)
| CheckImportant (b : bool)
| ClickAddText (fresh : string)
| UploadPhotos (urls : list string)
| ClickStartProcess (now : string)
| ClickFinishStep
| ClickBackStep
| ClickFinishProcess.

Definition handle (ev : Event) (st : State) : option State :=
  match ev with
  | TypeName v =>
      Some {| process := process st; name := v; version := version st;
              current := current st; texts := texts st;
              textDraft := textDraft st; important := important st;
              photos := photos st; finalized := finalized st;
              alerts := alerts st |}
  | TypeVersion v =>
      Some {| process := process st; name := name st; version := v;
              current := current st; texts := texts st;
              textDraft := textDraft st; important := important st;
              photos := photos st; finalized := finalized st;
              alerts := alerts st |}
  | TypeText v =>
      Some {| process := process st; name := name st; version := version st;
              current := current st; texts := texts st;
              textDraft := v; important := important st;
              photos := photos st; finalized := finalized st;
              alerts := alerts st |}
  | CheckImportant b =>
      Some {| process := process st; name := name st; version := version st;
              current := current st; texts := texts st;
              textDraft := textDraft st; important := b;
              photos := photos st; finalized := finalized st;
              alerts := alerts st |}
  | ClickAddText fresh => Some (addText fresh st)
  | UploadPhotos urls => Some (uploadPhotos urls st)
  | ClickStartProcess now => Some (startProcess now st)
  | ClickFinishStep => finishStep st
  | ClickBackStep => Some (backStep st)
  | ClickFinishProcess => Some (finishProcess st)
  end.

Fixpoint run (evs : list Event) (st : State) : option State :=
  match evs with
  | [] => Some st
  | ev :: r => st' ← handle ev st; run r st'
  end.

(** What holds of the first editor throughout: the current step exists,
    the steps are numbered by position and those before the current one
    hold a photo and a text. *)
Definition sound (st : State) : Prop :=
  ∀ p, process st = Some p →
    (current st < length (Data.steps p))%nat
    ∧ RoundTrip.positional (Data.steps p)
    ∧ ∀ i, (i < current st)%nat →
        ∃ s, Data.steps p !! i = Some s
             ∧ Data.photos s ≠ [] ∧ Data.texts s ≠ [].

End LegacyApp.

Module LegacyPdf.
Import Data Pdf.
Local Open Scope Q_scope.

Definition margin : Q := 40.

(** [addPage] of the first version: the cursor goes to its margin. *)
Definition addPage (st : St) : St :=
  {| pages := S (pages st); page := S (pages st); y := margin;
     font := font st; size := size st; color := color st;
     drawColor := drawColor st; ops := ops st |}.

Section Exporting.

Variable E : Platform.

(** [new Date(iso).toLocaleDateString()] *)
Variable toLocaleDateString : string → string.

(** [Math.min(210 / img.width, 148 / img.height, 1)] *)
Definition scale (img : Image) : Q :=
  min_ext (ratio 210 (width img)) (min_ext (ratio 148 (height img)) 1).

(** One photo. The export waits for [onload] only: if the image does not
    decode it waits for ever, and if [pdf.addImage] throws it is
    abandoned; in both cases no file is saved ([None]). *)
Definition drawPhoto (s p : nat) (ph : string) (st : St) : option St :=
  match loadImage E ph with
  | None => None
  | Some img =>
      let wd := inject_Z (Z.of_N (width img)) * scale img in
      let ht := inject_Z (Z.of_N (height img)) * scale img in
      let st := if Qltb (pageH E - margin) (y st + ht)
                then addPage st else st in
      if addImage E ph
      then Some (advance (ht + 10)
                   (draw (Photo s p) (Picture ph wd ht) margin (y st)
                         (color st) st))
      else None
  end.

Fixpoint drawPhotos (s p : nat) (l : list string) (st : St) : option St :=
  match l with
  | [] => Some st
  | ph :: r => st' ← drawPhoto s p ph st; drawPhotos s (S p) r st'
  end.

(** One text item, on one line; red is switched on and off around an
    important one. *)
Definition drawText (s i : nat) (idx : Q) (t : TextItem) (st : St) : St :=
  let st := if Qltb (pageH E - margin) (y st + 30) then addPage st else st in
  let st := if important t then setTextColor red st else st in
  let st := text (Line s i 0 1)
                 (num E idx +:+ "." +:+ pretty (S i) +:+ " " +:+ content t)
                 AlignLeft margin (y st) st in
  let st := if important t then setTextColor black st else st in
  advance 18 st.

Fixpoint drawTexts (s i : nat) (idx : Q) (l : list TextItem) (st : St) : St :=
  match l with
  | [] => st
  | t :: r => drawTexts s (S i) idx r (drawText s i idx t st)
  end.

Definition drawStep (s : nat) (step : StepData) (st : St) : option St :=
  if (length (texts step) =? 0)%nat && (length (photos step) =? 0)%nat
  then Some st
  else
    let st := if Qltb (pageH E) (y st + 250) then addPage st else st in
    let st := setFontSize 14 (setFont bold st) in
    let st := text (Heading s) ("Schritt " +:+ num E (index step))
                   AlignLeft margin (y st) st in
    let st := advance 20 st in
    st ← drawPhotos s 0 (photos step) st;
    let st := setFontSize 11 (setFont normal st) in
    let st := drawTexts s 0 (index step) (texts step) st in
    Some (advance 10 st).

Fixpoint drawSteps (s : nat) (l : list StepData) (st : St) : option St :=
  match l with
  | [] => Some st
  | step :: r => st' ← drawStep s step st; drawSteps (S s) r st'
  end.

Definition drawHeader (p : ProcessData) (st : St) : St :=
  let st := setFontSize 16 (setFont bold st) in
  let st := text Title (name p) AlignLeft margin (y st) st in
  let st := advance 20 st in
  let st := setFontSize 10 (setFont normal st) in
  let st := text Meta ("Version " +:+ version p +:+ " – "
                       +:+ toLocaleString E (createdAt p))
                 AlignLeft margin (y st) st in
  advance 20 st.

Definition drawFooter (p : ProcessData) (total pg : nat) (st : St) : St :=
  let st := setFontSize 9 (setPage pg st) in
  text (Footer AlignLeft)
       ("Seite " +:+ pretty pg +:+ " von " +:+ pretty total
        +:+ " | Erstellt " +:+ toLocaleDateString (createdAt p))
       AlignLeft margin (pageH E - 20) st.

Definition drawFooters (p : ProcessData) (st : St) : St :=
  let total := pages st in
  foldl (fun st pg => drawFooter p total pg st) st (seq 1 total).

(** A photo the export cannot get past. *)
Definition bad (url : string) : Prop :=
  loadImage E url = None ∨ addImage E url = false.

(** The document [exportPDF] saves, if it gets that far. *)
Definition exportPDF (p : ProcessData) : option St :=
  st ← drawSteps 0 (steps p) (drawHeader p (new_doc margin));
  Some (drawFooters p st).

End Exporting.

(** The text item a drawing operation writes, if it writes one. *)
Definition item_of (p : ProcessData) (o : DrawOp) : option TextItem :=
  match op_origin o with
  | Line s i _ _ => step ← steps p !! s; texts step !! i
  | _ => None
  end.

(** A drawing operation has the colour of its kind: red for the text of
    an important item of [p], black for everything else. *)
Definition lawful (p : ProcessData) (o : DrawOp) : Prop :=
  op_color o
  = match item_of p o with
    | Some t => if important t then red else black
    | None => black
    end.

(** Between two items the pen is black. *)
Definition tidy (p : ProcessData) (st : St) : Prop :=
  color st = black ∧ Forall (lawful p) (ops st).

End LegacyPdf.

(** * Properties *)

(** ** The version pattern and [bumpVersion] *)

Module VersionFacts.
Import Version.
#[local] Arguments String.append !_ _ / : simpl nomatch.

Lemma span_digits_sound s a t :
  span_digits s = (a, t) →
  s = a +:+ t ∧ all_digits a
  ∧ match t with String c _ => is_digit c = false | EmptyString => True end.
Proof.
  revert a t. induction s as [|c r IH]; intros a t; simpl.
  - intros [= <- <-]. done.
  - destruct (is_digit c) eqn:Hc.
    + destruct (span_digits r) as [a' t'] eqn:Hr. intros [= <- <-].
      destruct (IH a' t' eq_refl) as (-> & ? & ?). done.
    + intros [= <- <-]. simpl. by rewrite Hc.
Qed.

Lemma span_digits_complete a t :
  all_digits a →
  match t with String c _ => is_digit c = false | EmptyString => True end →
  span_digits (a +:+ t) = (a, t).
Proof.
  intros Ha Ht. induction a as [|c r IH]; simpl.
  - destruct t as [|c r]; [done|]. simpl. by rewrite Ht.
  - destruct Ha as [Hc Hr]. by rewrite Hc, (IH Hr).
Qed.

Lemma string_app_empty_r s : s +:+ "" = s.
Proof. induction s; simpl; by f_equal. Qed.

Lemma is_digit_dot : is_digit "." = false.
Proof. reflexivity. Qed.

Lemma match_version_Some v a b :
  match_version v = Some (a, b) ↔
  a ≠ "" ∧ b ≠ "" ∧ all_digits a ∧ all_digits b ∧ v = a +:+ "." +:+ b.
Proof.
  unfold match_version. split.
  - destruct (span_digits v) as [a1 t1] eqn:H1.
    apply span_digits_sound in H1 as (-> & Ha1 & _).
    destruct a1 as [|c1 a1]; [done|].
    destruct t1 as [|d t1]; [done|].
    destruct (decide (d = "."%char)) as [->|Hd].
    2:{ destruct d as [[] [] [] [] [] [] [] []]; try done. }
    destruct (span_digits t1) as [b1 t2] eqn:H2.
    apply span_digits_sound in H2 as (-> & Hb1 & _).
    destruct b1 as [|c2 b1]; [done|].
    destruct t2; [|done].
    intros [= <- <-]. rewrite string_app_empty_r. done.
  - intros (Ha & Hb & Hda & Hdb & ->).
    rewrite (span_digits_complete a ("." +:+ b)) by done.
    destruct a as [|c a]; [done|]. simpl.
    rewrite <-(string_app_empty_r b) at 1.
    rewrite (span_digits_complete b "") by done.
    by destruct b.
Qed.

Lemma match_version_None v :
  match_version v = None ↔ ¬ version_format v.
Proof.
  split.
  - intros Hn (a & b & H). apply match_version_Some in H. congruence.
  - intros Hn. destruct (match_version v) as [[a b]|] eqn:H; [|done].
    destruct Hn. exists a, b. by apply match_version_Some.
Qed.

End VersionFacts.

Module DecimalFacts.
Import Version.
#[local] Arguments String.append !_ _ / : simpl nomatch.

Lemma digits_to_N_acc s acc :
  digits_to_N acc s = (acc * 10 ^ N.of_nat (String.length s) + digits_to_N 0 s)%N.
Proof.
  revert acc. induction s as [|c r IH]; intros acc; simpl String.length; simpl digits_to_N.
  - change (N.of_nat 0) with 0%N. rewrite N.pow_0_r. lia.
  - rewrite IH, (IH (0 * 10 + digit_value c)%N).
    rewrite Nat2N.inj_succ, N.pow_succ_r'. lia.
Qed.

Lemma digit_value_char d : (d < 10)%N → digit_value (pretty_N_char d) = d.
Proof.
  intros Hd.
  assert (d = 0 ∨ d = 1 ∨ d = 2 ∨ d = 3 ∨ d = 4 ∨ d = 5 ∨ d = 6 ∨ d = 7
          ∨ d = 8 ∨ d = 9)%N as H by lia.
  by repeat destruct H as [->|H]; try subst d.
Qed.

Lemma is_digit_char d : is_digit (pretty_N_char d) = true.
Proof. unfold pretty_N_char. by repeat case_match. Qed.

Lemma pretty_N_go_value x s :
  digits_to_N 0 (pretty_N_go x s)
  = (x * 10 ^ N.of_nat (String.length s) + digits_to_N 0 s)%N.
Proof.
  revert s. induction (N.lt_wf_0 x) as [x _ IH]; intros s.
  destruct (decide (x = 0%N)) as [->|Hx].
  - rewrite pretty_N_go_0. lia.
  - rewrite pretty_N_go_step by lia.
    rewrite IH by (apply N.div_lt; lia).
    simpl String.length. simpl digits_to_N.
    rewrite (digits_to_N_acc s), digit_value_char by (apply N.mod_lt; lia).
    rewrite Nat2N.inj_succ, N.pow_succ_r'.
    rewrite (N.div_mod x 10) at 3 by lia. lia.
Qed.

Lemma pretty_N_go_digits x s : all_digits s → all_digits (pretty_N_go x s).
Proof.
  revert s. induction (N.lt_wf_0 x) as [x _ IH]; intros s Hs.
  destruct (decide (x = 0%N)) as [->|Hx].
  - by rewrite pretty_N_go_0.
  - rewrite pretty_N_go_step by lia. apply IH; [apply N.div_lt; lia|].
    simpl. split; [apply is_digit_char|done].
Qed.

Lemma pretty_N_go_nonempty x s : s ≠ "" → pretty_N_go x s ≠ "".
Proof.
  revert s. induction (N.lt_wf_0 x) as [x _ IH]; intros s Hs.
  destruct (decide (x = 0%N)) as [->|Hx].
  - by rewrite pretty_N_go_0.
  - rewrite pretty_N_go_step by lia. apply IH; [apply N.div_lt; lia|done].
Qed.

(** The decimal rendering of a number reads back as that number. *)
Lemma parseInt10_pretty (n : N) : parseInt10 (pretty n) = n.
Proof.
  unfold parseInt10, pretty, pretty_N. case_decide as Hn; [by subst|].
  rewrite pretty_N_go_value. simpl. lia.
Qed.

Lemma pretty_all_digits (n : N) : all_digits (pretty n).
Proof.
  unfold pretty, pretty_N. case_decide; [done|]. by apply pretty_N_go_digits.
Qed.

Lemma pretty_nonempty (n : N) : pretty n ≠ "".
Proof.
  unfold pretty, pretty_N. case_decide as Hn; [done|].
  rewrite pretty_N_go_step by lia. by apply pretty_N_go_nonempty.
Qed.

End DecimalFacts.

Module BumpFacts.
Import Version VersionFacts DecimalFacts.

Lemma match_version_pretty (a b : N) :
  match_version (pretty a +:+ "." +:+ pretty b) = Some (pretty a, pretty b).
Proof.
  apply match_version_Some.
  auto using pretty_nonempty, pretty_all_digits.
Qed.

(** [bumpVersion] on every string ["<a>.<b>"] in canonical decimal form:
    a major of zero counts as one. *)
Lemma bumpVersion_decimal (a b : N) :
  bumpVersion (pretty a +:+ "." +:+ pretty b)
  = let major := if (a =? 0)%N then 1%N else a in
    if (b <? 9)%N
    then pretty major +:+ "." +:+ pretty (b + 1)%N
    else pretty (major + 1)%N +:+ ".0".
Proof.
  unfold bumpVersion, parseVersion. rewrite match_version_pretty.
  rewrite !parseInt10_pretty. unfold or_default. simpl.
  destruct (b =? 0)%N eqn:Hb; [apply N.eqb_eq in Hb as ->|]; done.
Qed.

(** For a major of at least one (and below 2^53, where the numbers of the
    program are exact) the bump is the one of the specification. *)
Lemma bumpVersion_positive_major (a b : N) :
  (1 ≤ a < 2 ^ 53)%N → (b ≤ 9)%N →
  bumpVersion (pretty a +:+ "." +:+ pretty b)
  = if (b <? 9)%N
    then pretty a +:+ "." +:+ pretty (b + 1)%N
    else pretty (a + 1)%N +:+ ".0".
Proof.
  intros [Ha _] _. rewrite bumpVersion_decimal. simpl.
  destruct (a =? 0)%N eqn:E; [apply N.eqb_eq in E; lia|done].
Qed.

Lemma parseVersion_malformed v :
  ¬ version_format v → parseVersion v = {| major := 1; minor := 0 |}.
Proof.
  intros H%match_version_None. unfold parseVersion. by rewrite H.
Qed.

End BumpFacts.

(** ** Finalisation *)

Module FinalizeFacts.
Import Data App Events.

Lemma version_drop_last_empty p : version (drop_last_empty p) = version p.
Proof. unfold drop_last_empty. by repeat case_match. Qed.

Lemma version_draft st p :
  version (ensureIndices (drop_last_empty (write_pending st p))) = version p.
Proof. simpl. by rewrite version_drop_last_empty. Qed.

(** What [finishProcess] stores: the trimmed, renumbered draft, with the
    version bumped exactly when there is no last snapshot or it differs
    from the snapshot of the draft. *)
Lemma finishProcess_process st p :
  process st = Some p →
  let draft := ensureIndices (drop_last_empty (write_pending st p)) in
  process (finishProcess st)
  = Some (if decide (lastSnapshot st = Some (snapshot draft))
          then draft
          else set_version (Version.bumpVersion (version p)) draft)
  ∧ lastSnapshot (finishProcess st) = Some (snapshot draft)
  ∧ finalized (finishProcess st) = true.
Proof.
  intros Hp. unfold finishProcess. rewrite Hp. cbv zeta.
  rewrite version_draft.
  destruct (lastSnapshot st) as [old|]; simpl; [|done].
  repeat case_decide; simplify_eq; done.
Qed.

End FinalizeFacts.

(** C10: a string that is not of the form digits, dot, digits is parsed
    as major 1, minor 0, so [bumpVersion] returns "1.1" for it; finalising
    a process with such a version for the first time stores "1.1". *)
Theorem bumpVersion_malformed (v : string) :
  ¬ Version.version_format v →
  Version.parseVersion v = {| Version.major := 1; Version.minor := 0 |}
  ∧ Version.bumpVersion v = "1.1"
  ∧ ∀ st p, App.process st = Some p → Data.version p = v →
      App.lastSnapshot st = None →
      Data.version <$> App.process (App.finishProcess st) = Some "1.1".
Proof.
  intros Hv. pose proof (BumpFacts.parseVersion_malformed v Hv) as Hp.
  assert (Version.bumpVersion v = "1.1") as Hb.
  { unfold Version.bumpVersion. by rewrite Hp. }
  repeat split; [done..|].
  intros st p Hst <- Hsnap.
  destruct (FinalizeFacts.finishProcess_process st p Hst) as (-> & _ & _).
  rewrite Hsnap. by rewrite decide_False, <-Hb.
Qed.

(** The four malformed strings of the specification. *)
Lemma bumpVersion_malformed_witness :
  (¬ Version.version_format "" ∧ ¬ Version.version_format "abc"
   ∧ ¬ Version.version_format "1.2.3" ∧ ¬ Version.version_format "v1.0")
  ∧ Version.bumpVersion "" = "1.1" ∧ Version.bumpVersion "abc" = "1.1"
  ∧ Version.bumpVersion "1.2.3" = "1.1" ∧ Version.bumpVersion "v1.0" = "1.1".
Proof.
  assert (∀ v, Version.match_version v = None → ¬ Version.version_format v)
    as H by (intros v; apply VersionFacts.match_version_None).
  pose proof (H "" eq_refl) as H1. pose proof (H "abc" eq_refl) as H2.
  pose proof (H "1.2.3" eq_refl) as H3. pose proof (H "v1.0" eq_refl) as H4.
  split; [exact (conj H1 (conj H2 (conj H3 H4)))|].
  split; [exact (proj1 (proj2 (bumpVersion_malformed "" H1)))|].
  split; [exact (proj1 (proj2 (bumpVersion_malformed "abc" H2)))|].
  split; [exact (proj1 (proj2 (bumpVersion_malformed "1.2.3" H3)))|].
  exact (proj1 (proj2 (bumpVersion_malformed "v1.0" H4))).
Defined.

(** C5 (the code departs from it): with a major of zero the bump starts
    from major one, "0.3" becomes "1.4" and "0.9" becomes "2.0"; the
    [bumpVersion] of the first version of the application returns "0.4"
    and "1.0". For a major of at least one the bump is the specified one
    ([BumpFacts.bumpVersion_positive_major]). *)
Theorem bumpVersion_major_zero :
  (∀ b : N, Version.bumpVersion ("0." +:+ pretty b)
            = if (b <? 9)%N then "1." +:+ pretty (b + 1)%N else "2.0")
  ∧ Version.bumpVersion "0.3" = "1.4"
  ∧ Version.bumpVersion "0.9" = "2.0"
  ∧ Legacy.bumpVersion "0.3" = "0.4"
  ∧ Legacy.bumpVersion "0.9" = "1.0".
Proof.
  split; [|done].
  intros b. apply (BumpFacts.bumpVersion_decimal 0 b).
Qed.

(** C4 (the code departs from it): after a step has been finished from an
    earlier position the record ends with two empty steps; the first
    finalisation removes one of them and stores version "1.1", the second
    one, with no edit in between, removes the other and stores "1.2". *)
Theorem finishProcess_twice_bumps_twice (fraction_toString : Q → string) :
  let click := Events.dispatch fraction_toString Events.ClickFinishProcess in
  let observe st :=
    (Data.version <$> App.process st, Data.steps <$> App.process st,
     App.pendingPhotos st, App.pendingTexts st) in
  let s1 := {| Data.index := 1; Data.photos := ["p"];
               Data.texts := [{| Data.id := "a1"; Data.content := "t";
                                 Data.important := false |}];
               Data.done := Some true |} in
  (st0 ← Events.run fraction_toString
           [Events.TypeName "P"; Events.ClickStartNew "T0";
            Events.UploadPhotos ["p"]; Events.TypeText "t";
            Events.ClickAddText "a1"; Events.ClickFinishStep;
            Events.ClickBackStep; Events.ClickFinishStep] App.initial;
   st1 ← click st0;
   st2 ← click st1;
   Some (observe st0, observe st1, observe st2))
  = Some ((Some "1.0", Some [s1; Data.new_step 1; Data.new_step 2], [], []),
          (Some "1.1", Some [s1; Data.new_step 1], [], []),
          (Some "1.2", Some [s1], [], [])).
Proof. vm_compute. reflexivity. Qed.

(** ** Loading *)

Module LoadFacts.
Import Data App Persist RoundTrip.

Section Reload.
Variable fraction_toString : Q → string.
Variable now : string.
Variable uid : nat → nat → string.

Lemma load_text_json u t :
  id t ≠ "" → load_text fraction_toString u (text_json t) = t.
Proof.
  intros Hid. destruct t as [i c b]. unfold load_text, text_json; simpl in *.
  change (get "id" _) with (Some (JStr i)).
  change (get "content" _) with (Some (JStr c)).
  change (get "important" _) with (Some (JBool b)).
  simpl. rewrite decide_False by done.
  by destruct (decide (c = "")) as [->|].
Qed.

Lemma imap_load_text (f : nat → string) l :
  Forall (fun t => id t ≠ "") l →
  imap (fun j t => load_text fraction_toString (f j) t) (text_json <$> l) = l.
Proof.
  intros Hl. revert f. induction Hl as [|t l Ht _ IH]; intros f; [done|].
  simpl. rewrite load_text_json by done. f_equal. apply (IH (f ∘ S)).
Qed.

Lemma js_String_JStr (l : list string) :
  js_String fraction_toString <$> (JStr <$> l) = l.
Proof. induction l; simpl; by f_equal. Qed.

Lemma load_step_json i s :
  Forall (fun t => id t ≠ "") (texts s) →
  load_step fraction_toString uid i (step_json s) = Some (reloaded_step s).
Proof.
  intros Hs. destruct s as [ix ph tx d]. unfold load_step, step_json; simpl in *.
  change (get "index" _) with (Some (JNum ix)).
  change (get "photos" _) with (Some (JArr (JStr <$> ph))).
  change (get "texts" _) with (Some (JArr (text_json <$> tx))).
  rewrite js_String_JStr, (imap_load_text (uid i)) by done.
  unfold reloaded_step; simpl. do 2 f_equal. by destruct d as [[]|].
Qed.

Lemma mapM_load_steps (f : nat → json → option StepData) l :
  (∀ i s, s ∈ l → f i (step_json s) = Some (reloaded_step s)) →
  mapM (fun r => r) (imap f (step_json <$> l)) = Some (reloaded_step <$> l).
Proof.
  revert f. induction l as [|s l IH]; intros f Hf; [done|].
  rewrite fmap_cons, imap_cons. simpl. rewrite Hf by left. simpl.
  rewrite (IH (f ∘ S)); [done|]. intros i s' Hs'. apply Hf. by right.
Qed.

Lemma positional_renumber l :
  positional l → imap (fun i s => set_index (position i) s) l = l.
Proof.
  intros Hl. apply list_eq. intros i. rewrite list_lookup_imap.
  destruct (l !! i) as [s|] eqn:Hi; [|done]. simpl.
  rewrite <-(Hl i s Hi). by destruct s.
Qed.

Lemma positional_reloaded l : positional l → positional (reloaded_step <$> l).
Proof.
  intros Hl i s. rewrite list_lookup_fmap.
  destruct (l !! i) as [s0|] eqn:Hi; [|done]. intros [= <-]. simpl. by apply Hl.
Qed.

(** A renumbered list is positional. *)
Lemma positional_ensureIndices p : positional (steps (ensureIndices p)).
Proof.
  intros i s. simpl. rewrite list_lookup_imap.
  destruct (steps p !! i); [|done]. by intros [= <-].
Qed.

(** A step is read unless it is [null]. *)
Lemma load_step_is_Some i s :
  is_Some (load_step fraction_toString uid i s) ↔ s ≠ JNull.
Proof. destruct s; simpl; split; try done; by intros []. Qed.

(** A payload whose [steps] hold [null] is not loaded. *)
Lemma normalize_null_step obj l :
  truthy (Some obj) = true → truthy (get "name" obj) = true →
  get "steps" obj = Some (JArr l) → JNull ∈ l →
  normalize fraction_toString now uid obj = Thrown.
Proof.
  intros Hobj Hname Hsteps [i Hi]%list_elem_of_lookup. unfold normalize.
  rewrite Hobj, Hname, Hsteps. simpl.
  destruct (mapM _ _) as [ss|] eqn:Hss; [|done].
  assert (is_Some (mapM (fun r => r) (imap (load_step fraction_toString uid) l)))
    as Hall%mapM_is_Some_1 by by rewrite Hss.
  eapply Forall_lookup_1 in Hall;
    [|by rewrite list_lookup_imap, Hi]. by destruct Hall.
Qed.

(** A payload without a truthy name or without an array of steps is
    invalid. *)
Lemma normalize_invalid obj :
  truthy (get "name" obj) = false ∨ (∀ l, get "steps" obj ≠ Some (JArr l)) →
  normalize fraction_toString now uid obj = Invalid.
Proof.
  intros [Hname|Hsteps]; unfold normalize.
  - rewrite Hname. by rewrite orb_true_r.
  - destruct (_ || _); [done|].
    destruct (get "steps" obj) as [[]|] eqn:Hs; try done. by destruct (Hsteps l).
Qed.

(** Every other payload is accepted: it is stored as it is where its
    version or creation date is kept and is no string, and else loaded
    with the name as a string, one step per element, numbered by
    position, the version "1.0" unless it matches the pattern, and the
    current time unless it has a creation date. *)
Lemma normalize_accepts obj l :
  truthy (Some obj) = true → truthy (get "name" obj) = true →
  get "steps" obj = Some (JArr l) → JNull ∉ l →
  normalize fraction_toString now uid obj = Untyped
  ∨ ∃ p, normalize fraction_toString now uid obj = Loaded p
         ∧ name p = js_String_opt fraction_toString (get "name" obj)
         ∧ length (steps p) = length l
         ∧ positional (steps p)
         ∧ (Version.test_version
              (js_String_opt fraction_toString (get "version" obj)) = false →
            version p = "1.0")
         ∧ (truthy (get "createdAt" obj) = false → createdAt p = now).
Proof.
  intros Hobj Hname Hsteps Hnull. unfold normalize.
  rewrite Hobj, Hname, Hsteps. simpl.
  destruct (mapM _ _) as [ss|] eqn:Hss.
  2:{ assert (is_Some (mapM (fun r => r)
                (imap (load_step fraction_toString uid) l))) as [? Hs].
      { apply mapM_is_Some_2, Forall_lookup. intros i r.
        rewrite list_lookup_imap. destruct (l !! i) as [s|] eqn:Hi; [|done].
        intros [= <-]. apply load_step_is_Some. intros ->.
        apply Hnull. by eapply list_elem_of_lookup_2. }
      congruence. }
  apply length_mapM in Hss. rewrite length_imap in Hss.
  set (ver := if Version.test_version _ then _ else Some "1.0").
  set (created := if truthy (get "createdAt" obj) then _ else Some now).
  destruct ver as [v|] eqn:Hv; [|by left].
  destruct created as [c|] eqn:Hc; [|by left].
  right. eexists. split; [reflexivity|].
  split; [done|]. split; [by simpl; rewrite length_imap|].
  split; [apply positional_ensureIndices|].
  unfold ver, created in *. simpl. split.
  - intros Hno. rewrite Hno in Hv. congruence.
  - intros Hno. rewrite Hno in Hc. congruence.
Qed.

(** What is missing in a text item is filled in. *)
Lemma load_text_defaults u t :
  (truthy (get "id" t) = false → id (load_text fraction_toString u t) = u)
  ∧ (truthy (get "content" t) = false →
     content (load_text fraction_toString u t) = "")
  ∧ important (load_text fraction_toString u t) = truthy (get "important" t).
Proof. unfold load_text; simpl. by repeat split; intros ->. Qed.

Lemma normalize_saved p :
  storable p →
  normalize fraction_toString now uid (process_json p) = Loaded (reloaded p).
Proof.
  intros (Hname & Hcreated & Hids & Hpos).
  destruct p as [n v c ss]; simpl in *. unfold normalize, process_json; simpl.
  change (get "name" _) with (Some (JStr n)).
  change (get "steps" _) with (Some (JArr (step_json <$> ss))).
  change (get "version" _) with (Some (JStr v)).
  change (get "createdAt" _) with (Some (JStr c)).
  simpl. rewrite !decide_False by done. simpl.
  rewrite mapM_load_steps.
  2:{ intros i s Hs. apply load_step_json.
      by eapply Forall_forall in Hids. }
  unfold reloaded, ensureIndices, set_steps; simpl.
  rewrite positional_renumber by by apply positional_reloaded.
  by destruct (Version.test_version v).
Qed.

End Reload.
End LoadFacts.

(** C7 (the code departs from it): a payload with a name whose [steps]
    array holds [null] is not loaded; reading the step throws, the user
    sees the load error and the state is otherwise unchanged. So it is
    for {"name": "a", "steps": [null]} and for every payload with a
    truthy name and an array of steps of which one is [null]. *)
Theorem loadProcess_null_step
    (fraction_toString : Q → string) (now : string) (uid : nat → nat → string)
    (st : App.State) :
  let payload :=
    Persist.JObj [("name", Persist.JStr "a");
                  ("steps", Persist.JArr [Persist.JNull])] in
  (Persist.normalize fraction_toString now uid payload = Persist.Thrown
   ∧ Persist.loadProcess fraction_toString now uid (Persist.Payload payload) st
     = Some (App.alert "Konnte die Datei nicht laden." st)
   ∧ App.process (App.alert "Konnte die Datei nicht laden." st)
     = App.process st)
  ∧ ∀ obj l,
      Persist.truthy (Some obj) = true →
      Persist.truthy (Persist.get "name" obj) = true →
      Persist.get "steps" obj = Some (Persist.JArr l) →
      Persist.JNull ∈ l →
      Persist.loadProcess fraction_toString now uid (Persist.Payload obj) st
      = Some (App.alert "Konnte die Datei nicht laden." st).
Proof.
  split; [done|]. intros obj l Hobj Hname Hsteps Hnull. simpl.
  by rewrite (LoadFacts.normalize_null_step _ _ _ obj l).
Qed.

(** ** Finalising twice *)

Module IdempotenceFacts.
Import FinalizeFacts.
Import Data App Events.

Lemma alter_fixed {A} (f : A → A) (i : nat) (l : list A) :
  (∀ x, l !! i = Some x → f x = x) → alter f i l = l.
Proof.
  intros Hf. apply list_eq. intros j.
  destruct (decide (i = j)) as [<-|Hne].
  - rewrite list_lookup_alter_eq. destruct (l !! i) as [x|] eqn:Hx; [|done].
    simpl. by rewrite Hf.
  - by rewrite list_lookup_alter_ne.
Qed.

(** The record [finishProcess] stores is numbered by position. *)
Lemma finishProcess_positional st p p1 :
  process st = Some p → process (finishProcess st) = Some p1 →
  RoundTrip.positional (steps p1).
Proof.
  intros Hp. destruct (finishProcess_process st p Hp) as (-> & _ & _).
  intros [= <-]. case_decide; apply LoadFacts.positional_ensureIndices.
Qed.

(** After the editor effect the buffers hold what the current step holds,
    so writing them back changes nothing. *)
Lemma write_pending_after_effect st p :
  process st = Some p → write_pending (editorEffect st) p = p.
Proof.
  intros Hp. unfold write_pending, editorEffect. rewrite Hp.
  destruct p as [n v c ss]. unfold set_steps. simpl. f_equal.
  destruct (ss !! currentIndex st) as [step|] eqn:Hstep; simpl.
  - apply alter_fixed. intros x Hx. rewrite Hstep in Hx. injection Hx as <-.
    by destruct step.
  - apply alter_fixed. intros x Hx. by rewrite Hstep in Hx.
Qed.

(** Where the idempotence of the specification does hold: if the stored
    record does not end with an empty step, a second finalisation with no
    edit in between stores the same record and the same snapshot. *)
Lemma finishProcess_idempotent_when_trimmed st p p1 :
  process st = Some p →
  process (finishProcess st) = Some p1 →
  (∀ l, last (steps p1) = Some l → is_empty_step l = false) →
  let st1 := editorEffect (finishProcess st) in
  process (finishProcess st1) = Some p1
  ∧ lastSnapshot (finishProcess st1) = lastSnapshot st1.
Proof.
  intros Hp Hp1 Hlast st1.
  assert (process st1 = Some p1) as Hst1.
  { unfold st1, editorEffect. rewrite Hp1. by destruct (_ !! _). }
  assert (lastSnapshot st1 = lastSnapshot (finishProcess st)) as Hsnap1.
  { unfold st1, editorEffect. rewrite Hp1. by destruct (_ !! _). }
  assert (ensureIndices (drop_last_empty (write_pending st1 p1)) = p1) as Hd.
  { unfold st1. rewrite write_pending_after_effect by done.
    assert (drop_last_empty p1 = p1) as ->.
    { unfold drop_last_empty. destruct (last (steps p1)) as [l|] eqn:Hl; [|done].
      by rewrite (Hlast l). }
    unfold ensureIndices.
        rewrite LoadFacts.positional_renumber
      by apply (finishProcess_positional st p p1 Hp Hp1).
    by destruct p1. }
  destruct (finishProcess_process st1 p1 Hst1) as (Hres & Hsnap & _).
  rewrite Hd in Hres, Hsnap.
  assert (lastSnapshot st1 = Some (snapshot p1)) as Hold.
  { rewrite Hsnap1.
    destruct (finishProcess_process st p Hp) as (Hq & -> & _).
    rewrite Hp1 in Hq. injection Hq as ->. by case_decide. }
  rewrite Hres, Hsnap, Hold. by rewrite decide_True.
Qed.

End IdempotenceFacts.

(** ** The records the editor builds *)

Module EditorFacts.
Import Data App Events RoundTrip.

Lemma ids_ok_renumber l :
  ids_ok l → ids_ok (imap (fun i s => set_index (position i) s) l).
Proof.
  unfold ids_ok. rewrite !Forall_lookup. intros Hl i s.
  rewrite list_lookup_imap. destruct (l !! i) as [s0|] eqn:Hi; [|done].
  intros [= <-]. simpl. by eapply Hl.
Qed.

Lemma storable_ensureIndices p :
  name p ≠ "" → createdAt p ≠ "" → ids_ok (steps p) →
  storable (ensureIndices p).
Proof.
  intros Hn Hc Hids. repeat split; try done.
  - by apply ids_ok_renumber.
  - apply LoadFacts.positional_ensureIndices.
Qed.

Lemma ids_ok_write_pending st p :
  ids_ok (steps p) → Forall (fun t => id t ≠ "") (pendingTexts st) →
  ids_ok (steps (write_pending st p)).
Proof.
  intros Hp Hpend. simpl. apply Forall_alter; [done|]. by intros s _ _.
Qed.

Lemma ids_ok_drop_last_empty p :
  ids_ok (steps p) → ids_ok (steps (drop_last_empty p)).
Proof.
  intros Hp. unfold drop_last_empty. repeat case_match; try done.
  simpl. by apply Forall_take.
Qed.

Lemma name_drop_last_empty p : name (drop_last_empty p) = name p.
Proof. unfold drop_last_empty. by repeat case_match. Qed.

Lemma createdAt_drop_last_empty p :
  createdAt (drop_last_empty p) = createdAt p.
Proof. unfold drop_last_empty. by repeat case_match. Qed.

Lemma clean_editorEffect st : clean st → clean (editorEffect st).
Proof.
    intros Hst. pose proof Hst as [Hp Hpend]. unfold editorEffect.
  destruct (process st) as [p|] eqn:Hproc; [|done].
    destruct (steps p !! currentIndex st) as [step|] eqn:Hstep; [|done].
  split; [simpl; by rewrite Hproc|]. simpl.
  destruct (Hp p eq_refl) as (_ & _ & Hids & _).
  by eapply Forall_lookup_1 in Hids.
Qed.

Lemma clean_startNew now st : now ≠ "" → clean st → clean (startNew now st).
Proof.
  intros Hnow Hst. unfold startNew. case_decide as Hname; [done|].
  split; [|by simpl]. simpl. intros p [= <-].
  repeat split; try done.
  - by repeat constructor.
  - by intros [|i] s; simpl; [intros [= <-]|].
Qed.

Lemma clean_commit mutator st st' :
  (∀ p q, mutator p = Some q →
     name q = name p ∧ createdAt q = createdAt p
     ∧ (ids_ok (steps p) → ids_ok (steps q))) →
  clean st → commitStepEdits mutator st = Some st' →
  clean st' ∧ pendingTexts st' = pendingTexts st.
Proof.
    intros Hm Hst. pose proof Hst as [Hp Hpend]. unfold commitStepEdits.
  destruct (process st) as [p|] eqn:Hproc; [|by intros [= <-]].
  destruct (mutator _) as [q|] eqn:Hq; [|done]. intros [= <-].
  split; [|done]. split; [|done]. simpl. intros ? [= <-].
  destruct (Hp p eq_refl) as (Hn & Hc & Hids & _).
  destruct (Hm _ _ Hq) as (Hn' & Hc' & Hids').
  apply storable_ensureIndices.
  - by rewrite Hn'.
  - by rewrite Hc'.
  - by apply Hids', ids_ok_write_pending.
Qed.

Lemma finishStep_mutator_keeps i p q :
  finishStep_mutator i p = Some q →
  name q = name p ∧ createdAt q = createdAt p
  ∧ (ids_ok (steps p) → ids_ok (steps q)).
Proof.
  unfold finishStep_mutator. destruct (steps p !! i); [|done].
  intros [= <-]. repeat split. simpl. intros Hids.
  apply Forall_app. split; [|by repeat constructor].
  by apply Forall_alter.
Qed.

Lemma clean_finishStep st : clean st → clean (finishStep st).
Proof.
  intros Hst. unfold finishStep.
  destruct (process st); [|done]. destruct (canFinishStep st); [|done].
  destruct (commitStepEdits _ st) as [st'|] eqn:Hc; [|done].
  eapply clean_commit in Hc as [[Hp _] _];
    [|apply finishStep_mutator_keeps|done].
  split; [done|by simpl].
Qed.

Lemma clean_backStep st : clean st → clean (backStep st).
Proof.
  intros Hst. unfold backStep. destruct (currentIndex st); [done|].
  destruct (commitStepEdits _ st) as [st'|] eqn:Hc; [|done].
  eapply clean_commit in Hc as [[Hp Hpend] _]; [by split| |done].
  by intros p q [= <-].
Qed.

Lemma clean_finishProcess st : clean st → clean (finishProcess st).
Proof.
  intros Hst. pose proof Hst as [Hp Hpend].
  destruct (process st) as [p|] eqn:Hproc.
  2:{ unfold finishProcess. by rewrite Hproc. }
  destruct (FinalizeFacts.finishProcess_process st p Hproc) as (Hres & _ & _).
  assert (pendingTexts (finishProcess st) = pendingTexts st) as Hsame.
  { unfold finishProcess. by rewrite Hproc. }
  split; [|by rewrite Hsame]. rewrite Hres. intros ? [= <-].
  destruct (Hp p eq_refl) as (Hn & Hc & Hids & _).
  assert (storable (ensureIndices (drop_last_empty (write_pending st p)))) as Hs.
  { apply storable_ensureIndices.
    - by rewrite name_drop_last_empty.
    - by rewrite createdAt_drop_last_empty.
    - by apply ids_ok_drop_last_empty, ids_ok_write_pending. }
  by case_decide.
Qed.

Lemma clean_handle fraction_toString ev st st' :
  editor_event ev → clean st →
  handle fraction_toString ev st = Some st' → clean st'.
Proof.
  intros Hev Hst. pose proof Hst as [Hp Hpend].
  destruct ev; simpl in *; try (intros [= <-]); try done.
  - by apply clean_startNew.
  - unfold addText. case_decide; [done|]. split; [done|]. simpl.
    apply Forall_app. split; [done|]. by apply Forall_singleton.
  - split; [done|]. simpl. apply Forall_forall.
    intros t [_ Ht]%list_elem_of_filter. by eapply Forall_forall in Hpend.
  - split; [done|]. simpl. apply Forall_fmap.
    eapply Forall_impl; [exact Hpend|]. intros t Ht. simpl. by case_decide.
  - by apply clean_finishStep.
  - by apply clean_backStep.
  - by apply clean_finishProcess.
Qed.

(** Every record built with the editor is storable. *)
Lemma editor_records_storable fraction_toString evs st p :
  Forall editor_event evs →
  run fraction_toString evs initial = Some st →
  process st = Some p → storable p.
Proof.
  assert (clean initial) as Hinit by (split; [done|by constructor]).
  revert Hinit. generalize initial as st0. intros st0 Hst0 Hevs. revert st0 Hst0.
  induction Hevs as [|ev evs Hev _ IH]; intros st0 Hst0; simpl.
  - intros [= <-]. apply Hst0.
  - unfold dispatch. destruct (handle _ ev st0) as [st1|] eqn:Hh; [|done].
    simpl. apply IH. eapply clean_handle in Hh; [|done..].
    case_decide; [done|]. by apply clean_editorEffect.
Qed.

End EditorFacts.

(** C8, the counter-example: the record a new process starts with has a
    step without a [done] flag; saved and loaded it comes back with
    [done = false], although its version is well formed. *)
Lemma reload_adds_done_flag :
  let p := {| Data.name := "P"; Data.version := "1.0"; Data.createdAt := "T0";
              Data.steps := [Data.new_step 0] |} in
  App.process <$>
    Events.run (fun _ => "") [Events.TypeName "P"; Events.ClickStartNew "T0"]
               App.initial = Some (Some p)
  ∧ Version.test_version (Data.version p) = true
  ∧ ¬ (Persist.normalize (fun _ => "") "T1" (fun _ _ => "u")
         (Persist.process_json p) = Persist.Loaded p).
Proof. repeat split. vm_compute. discriminate. Qed.

(** C8, amended: a record with non-empty name, creation date and text
    ids and positional step numbers is loaded from its saved form with
    name, creation date, step numbers, photos and texts unchanged; a
    version outside the pattern has become "1.0" and a step without a
    [done] flag has [done = false]. *)
Theorem save_load_round_trip
    (fraction_toString : Q → string) (now : string) (uid : nat → nat → string)
    (st0 st : App.State) (p : Data.ProcessData) :
  App.process st = Some p →
  RoundTrip.storable p →
  ∃ saved st',
    Persist.saveProcess st = Some saved
    ∧ Persist.normalize fraction_toString now uid saved
      = Persist.Loaded (RoundTrip.reloaded p)
    ∧ Persist.loadProcess fraction_toString now uid (Persist.Payload saved) st0
      = Some st'
    ∧ App.process st' = Some (RoundTrip.reloaded p).
Proof.
  intros Hp Hs. exists (Persist.process_json p). eexists.
  unfold Persist.saveProcess, Persist.loadProcess. rewrite Hp.
  rewrite (LoadFacts.normalize_saved _ _ _ _ Hs). done.
Qed.

(** ** Image scaling *)

Module ScaleFacts.
Import Pdf.
Local Open Scope Q_scope.



Lemma Qmin_cases a b :
  (a <= b ∧ Qmin a b == a) ∨ (b <= a ∧ Qmin a b == b).
Proof.
  destruct (Q.min_spec a b) as [[H1 H2]|[H1 H2]]; [left|right]; split;
    auto using Qlt_le_weak.
Qed.

Lemma pixels_nonneg (n : N) : 0 <= inject_Z (Z.of_N n).
Proof. unfold Qle; simpl. lia. Qed.

Lemma pixels_pos (n : N) : (0 < n)%N → 0 < inject_Z (Z.of_N n).
Proof. unfold Qlt; simpl. lia. Qed.

Section Geometry.
Variable E : Platform.
Hypothesis wide : 72 < pageW E.
Hypothesis tall : 72 < pageH E.

Lemma maxImgW_pos : 0 < maxImgW E.
Proof.
  unfold maxImgW, contentW, A6W, margin.
  destruct (Qmin_cases 297.64 (pageW E - 36 * 2)) as [[_ ->]|[_ ->]]; lra.
Qed.

Lemma maxImgH_pos : 0 < maxImgH E.
Proof.
  unfold maxImgH, A6H, margin.
  destruct (Qmin_cases 420.94 (pageH E - 36 * 2)) as [[_ ->]|[_ ->]]; lra.
Qed.

(** The image box is no taller than the usable height of a page. *)
Lemma maxImgH_usable : maxImgH E <= pageH E - margin * 2.
Proof. unfold maxImgH. apply Q.le_min_r. Qed.

Lemma min_ext_bounds a m n :
  0 < m → 0 < a → a <= 1 →
  0 < min_ext (ratio m n) a ∧ min_ext (ratio m n) a <= a
  ∧ inject_Z (Z.of_N n) * min_ext (ratio m n) a <= m.
Proof.
  intros Hm Ha Ha1. unfold ratio.
  destruct (n =? 0)%N eqn:Hn; simpl.
  - apply N.eqb_eq in Hn as ->. change (inject_Z (Z.of_N 0)) with 0.
    repeat split; lra.
  - apply N.eqb_neq in Hn.
    pose proof (pixels_pos n ltac:(lia)) as Hp.
    set (x := inject_Z (Z.of_N n)) in *.
    assert (x * (m / x) == m) as Hx by (apply Qmult_div_r; lra).
    assert (0 < m / x) as Hq by (apply Qlt_shift_div_l; lra).
    destruct (Qmin_cases (m / x) a) as [[Hle ->]|[Hle ->]];
      repeat split; try lra.
    rewrite <-Hx. apply Qmult_le_l; lra.
Qed.

Lemma scale_bounds img :
  0 < scale E img ∧ scale E img <= 1
  ∧ w (scaleDims E img) <= maxImgW E ∧ h (scaleDims E img) <= maxImgH E.
Proof.
  unfold scaleDims, scale; simpl.
  destruct (min_ext_bounds 1 (maxImgH E) (height img)) as (H1 & H2 & H3);
    [apply maxImgH_pos|lra..|].
  set (b := min_ext (ratio (maxImgH E) (height img)) 1) in *.
  destruct (min_ext_bounds b (maxImgW E) (width img)) as (H4 & H5 & H6);
    [apply maxImgW_pos|lra..|].
  set (s := min_ext (ratio (maxImgW E) (width img)) b) in *.
  repeat split; try lra.
  pose proof (pixels_nonneg (height img)) as Hh.
  apply Qle_trans with (inject_Z (Z.of_N (height img)) * b); [|done].
  apply Qmult_le_compat_nonneg; lra.
Qed.

(** A scaled image is never drawn with a negative height and always
    fits the usable height of a page. *)
Lemma scaled_height_fits img :
  0 <= h (scaleDims E img) ∧ h (scaleDims E img) <= pageH E - margin * 2.
Proof.
  destruct (scale_bounds img) as (Hs & _ & _ & Hh).
  pose proof maxImgH_usable. split; [|lra].
  simpl. apply Qmult_le_0_compat; [apply pixels_nonneg|lra].
Qed.

End Geometry.
End ScaleFacts.


(** ** The block sequence *)

Module BlockFacts.
Import Data Pdf Blocks.
Local Open Scope Q_scope.

Section Sequence.
Variable E : Platform.
Hypothesis lines_nonempty : ∀ f n str wd, splitTextToSize E f n str wd ≠ [].











End Sequence.
End BlockFacts.


(** ** Page breaks *)

Module PageFacts.
Import Data Pdf Paging.
Local Open Scope Q_scope.

Lemma draws_from_refl P st : draws_from P st st.
Proof. intros ??. repeat split; try done. exists []. by rewrite app_nil_r. Qed.

Lemma draws_from_trans P st1 st2 st3 :
  draws_from P st1 st2 → draws_from P st2 st3 → draws_from P st1 st3.
Proof.
  intros H12 H23 Hp HP.
  destruct (H12 Hp HP) as (Hp2 & HP2 & new1 & Hops1 & Hnew1).
  destruct (H23 Hp2 HP2) as (Hp3 & HP3 & new2 & Hops2 & Hnew2).
  repeat split; try done. exists (new1 ++ new2).
  rewrite Hops2, Hops1, app_assoc. split; [done|]. by apply Forall_app.
Qed.

(** Changes of the cursor or of the graphics state draw nothing. *)
Lemma draws_from_silent P st st' :
  ops st' = ops st → page st' = page st → pages st' = pages st →
  draws_from P st st'.
Proof.
  intros Ho Hp Hps ??. rewrite Hp, Hps. repeat split; try done.
  exists []. by rewrite app_nil_r.
Qed.

Lemma draws_from_draw P o sh x y0 c st : draws_from P st (draw o sh x y0 c st).
Proof.
  intros ??. repeat split; try done. eexists. split; [done|].
  by apply Forall_singleton.
Qed.

Lemma draws_from_addPage P st : draws_from P st (addPage st).
Proof.
  intros Hp HP. simpl. repeat split; try lia.
  exists []. by rewrite app_nil_r.
Qed.

Section Steps.
Variable E : Platform.

Lemma draws_from_ensureSpace P needed st :
  draws_from P st (ensureSpace E needed st).
Proof.
  unfold ensureSpace. destruct (Qltb _ _);
    [apply draws_from_addPage|apply draws_from_refl].
Qed.

Lemma draws_from_drawLines P s i li n lines st :
  draws_from P st (drawLines s i li n lines st).
Proof.
  revert li st. induction lines as [|l r IH]; intros li st; simpl;
    [apply draws_from_refl|].
  eapply draws_from_trans; [|apply IH].
  eapply draws_from_trans; [apply draws_from_draw|].
  by apply draws_from_silent.
Qed.

Lemma draws_from_drawText P s i idx t st :
  draws_from P st (drawText E s i idx t st).
Proof.
  unfold drawText.
  eapply draws_from_trans; [apply draws_from_ensureSpace|].
  eapply draws_from_trans; [|by apply draws_from_silent].
  eapply draws_from_trans; [|apply draws_from_drawLines].
  destruct (important t); by apply draws_from_silent.
Qed.

Lemma draws_from_drawTexts P s i idx l st :
  draws_from P st (drawTexts E s i idx l st).
Proof.
  revert i st. induction l as [|t r IH]; intros i st; simpl;
    [apply draws_from_refl|].
  eapply draws_from_trans; [apply draws_from_drawText|apply IH].
Qed.

Lemma draws_from_drawPhoto P s p url st :
  draws_from P st (drawPhoto E s p url st).
Proof.
    unfold drawPhoto. destruct (loadImage E url); [|apply draws_from_refl].
  destruct (addImage E url); [|apply draws_from_ensureSpace].
  eapply draws_from_trans; [apply draws_from_ensureSpace|].
  eapply draws_from_trans; [apply draws_from_draw|].
  by apply draws_from_silent.
Qed.

Lemma draws_from_drawPhotos P s p l st :
  draws_from P st (drawPhotos E s p l st).
Proof.
  revert p st. induction l as [|url r IH]; intros p st; simpl;
    [apply draws_from_refl|].
  eapply draws_from_trans; [apply draws_from_drawPhoto|apply IH].
Qed.

Lemma draws_from_after_heading P s step st :
  draws_from P st (after_heading E s step st).
Proof.
  unfold after_heading.
  eapply draws_from_trans; [|by apply draws_from_silent].
  eapply draws_from_trans; [|apply draws_from_drawTexts].
  eapply draws_from_trans; [|by apply draws_from_silent].
  eapply draws_from_trans; [|apply draws_from_drawPhotos].
  by apply draws_from_silent.
Qed.

Lemma draws_from_drawStep P s step st :
  draws_from P st (drawStep E s step st).
Proof.
  unfold drawStep. destruct (is_empty_step step); [apply draws_from_refl|].
  eapply draws_from_trans; [|apply (draws_from_after_heading P s step)].
  eapply draws_from_trans; [|apply draws_from_draw].
  set (st1 := if Qltb _ _ then addPage st else st).
  apply (draws_from_trans P st st1); [|by apply draws_from_silent].
  unfold st1.
  destruct (Qltb _ _); [apply draws_from_addPage|apply draws_from_refl].
Qed.

Lemma draws_from_drawSteps P s l st :
  draws_from P st (drawSteps E s l st).
Proof.
  revert s st. induction l as [|step r IH]; intros s st; simpl;
    [apply draws_from_refl|].
  eapply draws_from_trans; [apply draws_from_drawStep|apply IH].
Qed.

(** Every step of the export is laid out from a state on its last
    page. *)
Lemma drawHeader_last_page p :
  page (drawHeader E p (new_doc margin))
  = pages (drawHeader E p (new_doc margin)).
Proof. reflexivity. Qed.

Lemma drawSteps_last_page s l st :
  page st = pages st →
  page (drawSteps E s l st) = pages (drawSteps E s l st).
Proof.
  intros Hlast.
  by destruct (draws_from_drawSteps 0 s l st Hlast) as (? & _); [lia|].
Qed.

End Steps.
End PageFacts.


(** ** Atomic placement *)

Module AtomicFacts.
Import Data Pdf Atomic.
Local Open Scope Q_scope.









Section Invariant.
Variable E : Platform.
Hypothesis wide : 72 < pageW E.
Hypothesis tall : 72 < pageH E.




















End Invariant.
End AtomicFacts.


(** ** Text colour *)

Module ColorFacts.
Import Data Pdf.
Local Open Scope Q_scope.

Section Colour.
Variable E : Platform.

Lemma color_drawLines s i li n lines st :
color (drawLines s i li n lines st) = color st.
Proof.
revert li st. induction lines as [|l r IH]; intros li st; simpl; [done|].
by rewrite IH.
Qed.

(** After a text item the colour is the one of that item: nothing sets
  it back. *)
Lemma color_drawText s i idx t st :
color (drawText E s i idx t st) = if important t then red else black.
Proof.
unfold drawText. simpl. rewrite color_drawLines. by destruct (important t).
Qed.

Lemma drawTexts_snoc s i idx l t st :
drawTexts E s i idx (l ++ [t]) st
= drawText E s (i + length l) idx t (drawTexts E s i idx l st).
Proof.
revert i st. induction l as [|t0 r IH]; intros i st; simpl.
- by rewrite Nat.add_0_r.
- rewrite IH. by replace (S i + length r)%nat with (i + S (length r))%nat by lia.
Qed.

Lemma drawSteps_snoc s l step st :
drawSteps E s (l ++ [step]) st
= drawStep E (s + length l) step (drawSteps E s l st).
Proof.
revert s st. induction l as [|s0 r IH]; intros s st; simpl.
- by rewrite Nat.add_0_r.
- rewrite IH. by replace (S s + length r)%nat with (s + S (length r))%nat by lia.
Qed.

Lemma color_drawStep_important s step ts t st :
texts step = ts ++ [t] → important t = true →
color (drawStep E s step st) = red.
Proof.
intros Hts Ht. unfold drawStep.
assert (is_empty_step step = false) as ->.
{ unfold is_empty_step. rewrite Hts, length_app. simpl.
  apply andb_false_iff. right. apply Nat.eqb_neq. lia. }
simpl. rewrite Hts, drawTexts_snoc, color_drawText. by rewrite Ht.
Qed.

(** The document ends in the colour of emphasis when the last text of the
  last step is marked important. *)
Lemma color_layout_important p l step ts t :
steps p = l ++ [step] → texts step = ts ++ [t] → important t = true →
color (layout E p) = red.
Proof.
intros Hp Hts Ht. unfold layout. rewrite Hp, drawSteps_snoc.
by eapply color_drawStep_important.
Qed.

Lemma footers_fold p total l st :
∃ new, ops (foldl (fun st pg => drawFooter E p total pg st) st l)
       = ops st ++ new
       ∧ length new = (3 * length l)%nat
       ∧ Forall (fun o => (∃ a, op_origin o = Footer a)
                          ∧ op_color o = color st) new.
Proof.
revert st. induction l as [|pg r IH]; intros st; simpl.
- exists []. by rewrite app_nil_r.
- destruct (IH (drawFooter E p total pg st)) as (new & -> & Hlen & Hnew).
  eexists (_ :: _ :: _ :: new). simpl. rewrite <-!app_assoc. simpl.
  split; [reflexivity|]. split; [lia|].
  repeat (apply Forall_cons; split; [split; [by eexists|done]|]). done.
Qed.

(** The footers are drawn in whatever colour the layout ended with. *)
Lemma footers_inherit_color p st :
∃ new, ops (drawFooters E p st) = ops st ++ new
       ∧ length new = (3 * pages st)%nat
       ∧ Forall (fun o => (∃ a, op_origin o = Footer a)
                          ∧ op_color o = color st) new.
Proof.
unfold drawFooters.
destruct (footers_fold p (pages st) (seq 1 (pages st)) st)
  as (new & Hops & Hlen & Hnew).
rewrite length_seq in Hlen. by exists new.
Qed.

(** A heading is drawn in whatever colour the step before it ended with. *)
Lemma heading_inherits_color s step st :
is_empty_step step = false → page st = pages st →
∃ hd rest, ops (drawStep E s step st) = ops st ++ hd :: rest
           ∧ op_origin hd = Heading s ∧ op_color hd = color st.
Proof.
intros Hne Hlast.
destruct (PageFacts.draws_from_after_heading E 0 s step
  (text (Heading s) ("Schritt " +:+ num E (index step)) AlignLeft margin
     (y (setFontSize 13 (setFont bold
        (if Qltb (spaceLeft E st) (reserve E step) then addPage st else st))))
     (setFontSize 13 (setFont bold
        (if Qltb (spaceLeft E st) (reserve E step) then addPage st else st)))))
  as (_ & _ & rest & Hrest & _).
{ simpl. destruct (Qltb _ _); simpl; congruence. }
{ lia. }
unfold drawStep. rewrite Hne.
eexists _, rest. split; [|split].
- unfold Paging.after_heading in Hrest. rewrite Hrest. simpl.
  rewrite <-app_assoc. simpl. f_equal. by destruct (Qltb _ _).
- done.
- simpl. by destruct (Qltb _ _).
Qed.

End Colour.
End ColorFacts.

(** C9 (the code departs from it): nothing resets the text colour after an
    important text. A document whose only text is important has all three
    footer fields in the colour of emphasis; the heading that follows a
    step ending in an important text is drawn in that colour too. Font
    weights are set before each heading, text and footer. On every
    platform: if the last text of the last step is important, all footer
    fields of all pages are drawn in the colour of emphasis, and a heading
    is drawn in the colour the step before it ended with. *)
Theorem important_colour_leaks :
  let look o := (Pdf.op_origin o, Pdf.op_font o, Pdf.op_color o) in
  (∀ E p l step ts t,
     Data.steps p = l ++ [step] → Data.texts step = ts ++ [t] →
     Data.important t = true →
     ∃ footers,
       Pdf.ops (Pdf.render E p) = Pdf.ops (Pdf.layout E p) ++ footers
       ∧ length footers = (3 * Pdf.pages (Pdf.layout E p))%nat
       ∧ Forall (fun o => (∃ a, Pdf.op_origin o = Pdf.Footer a)
                          ∧ Pdf.op_color o = Pdf.red) footers)
  ∧ (∀ E s step st,
       Data.is_empty_step step = false → Pdf.page st = Pdf.pages st →
       ∃ hd rest,
         Pdf.ops (Pdf.drawStep E s step st) = Pdf.ops st ++ hd :: rest
         ∧ Pdf.op_origin hd = Pdf.Heading s
         ∧ Pdf.op_color hd = Pdf.color st)
  ∧ look <$> Pdf.ops (Pdf.render Sample.a4 Sample.one_warning)
  = [(Pdf.Title, Pdf.bold, Pdf.black); (Pdf.Meta, Pdf.normal, Pdf.black);
     (Pdf.Rule, Pdf.normal, (200, 200, 200)%nat);
     (Pdf.Heading 0, Pdf.bold, Pdf.black);
     (Pdf.Line 0 0 0 1, Pdf.bold, Pdf.red);
     (Pdf.Footer Pdf.AlignLeft, Pdf.normal, Pdf.red);
     (Pdf.Footer Pdf.AlignCenter, Pdf.normal, Pdf.red);
     (Pdf.Footer Pdf.AlignRight, Pdf.normal, Pdf.red)]
  ∧ look <$> Pdf.ops (Pdf.render Sample.a4 Sample.warning_then_remark)
  = [(Pdf.Title, Pdf.bold, Pdf.black); (Pdf.Meta, Pdf.normal, Pdf.black);
     (Pdf.Rule, Pdf.normal, (200, 200, 200)%nat);
     (Pdf.Heading 0, Pdf.bold, Pdf.black);
     (Pdf.Photo 0 0, Pdf.bold, Pdf.black);
     (Pdf.Line 0 0 0 1, Pdf.bold, Pdf.red);
     (Pdf.Heading 1, Pdf.bold, Pdf.red);
     (Pdf.Line 1 0 0 1, Pdf.normal, Pdf.black);
     (Pdf.Footer Pdf.AlignLeft, Pdf.normal, Pdf.black);
          (Pdf.Footer Pdf.AlignCenter, Pdf.normal, Pdf.black);
     (Pdf.Footer Pdf.AlignRight, Pdf.normal, Pdf.black)].
Proof.
  split; [|split; [|split; vm_compute; reflexivity]].
  - intros E p l step ts t Hp Hts Ht. unfold Pdf.render.
    destruct (ColorFacts.footers_inherit_color E p (Pdf.layout E p))
      as (footers & Hops & Hlen & Hall).
    rewrite (ColorFacts.color_layout_important E p l step ts t Hp Hts Ht)
      in Hall.
    by exists footers.
  - intros E s step st. apply ColorFacts.heading_inherits_color.
Qed.

(** ** The theorems at sample inputs *)





(** The sample record, saved and loaded into a fresh editor. *)
Lemma save_load_round_trip_witness :
  let st := App.setProcess (Some Sample.warning_then_remark) App.initial in
  App.process st = Some Sample.warning_then_remark
  ∧ RoundTrip.storable Sample.warning_then_remark
  ∧ ∃ saved st',
      Persist.saveProcess st = Some saved
      ∧ Persist.loadProcess (fun _ => "") "2024-02-02" (fun _ _ => "u")
          (Persist.Payload saved) App.initial = Some st'
      ∧ App.process st'
        = Some (RoundTrip.reloaded Sample.warning_then_remark).
Proof.
  intros st.
  assert (App.process st = Some Sample.warning_then_remark) as Hp
    by reflexivity.
  assert (RoundTrip.storable Sample.warning_then_remark) as Hs.
  { split; [discriminate|]. split; [discriminate|]. split.
    - repeat constructor; discriminate.
    - intros [|[|i]] s; simpl; intros [= <-]; reflexivity. }
  split; [exact Hp|]. split; [exact Hs|].
  destruct (save_load_round_trip (fun _ => "") "2024-02-02" (fun _ _ => "u")
              App.initial st Sample.warning_then_remark Hp Hs)
    as (saved & st' & Hsave & _ & Hload & Hres).
  exists saved, st'. split; [exact Hsave|]. split; [exact Hload|exact Hres].
Defined.

(** * Further properties *)

(** ** Versions *)

Module VersionMore.
Import Version VersionFacts DecimalFacts.
#[local] Arguments String.append !_ _ / : simpl nomatch.

Lemma or_default_1_pos x : (1 ≤ or_default x 1)%N.
Proof. unfold or_default. destruct (N.eqb_spec x 0); lia. Qed.

Lemma or_default_id x d : (x ≠ 0)%N → or_default x d = x.
Proof. unfold or_default. destruct (N.eqb_spec x 0); done. Qed.

Lemma major_pos v : (1 ≤ major (parseVersion v))%N.
Proof.
  unfold parseVersion. destruct (match_version v) as [[a b]|]; simpl;
    [apply or_default_1_pos|lia].
Qed.

Lemma parseVersion_pretty (a b : N) :
  parseVersion (pretty a +:+ "." +:+ pretty b)
  = {| major := or_default a 1; minor := b |}.
Proof.
  unfold parseVersion. rewrite BumpFacts.match_version_pretty.
  rewrite !parseInt10_pretty. f_equal.
  unfold or_default. by destruct (N.eqb_spec b 0).
Qed.

Lemma version_format_pretty (a b : N) :
  version_format (pretty a +:+ "." +:+ pretty b).
Proof.
  exists (pretty a), (pretty b).
  auto using pretty_nonempty, pretty_all_digits.
Qed.

Lemma bumpVersion_digits a b :
  a ≠ "" → b ≠ "" → all_digits a → all_digits b →
  bumpVersion (a +:+ "." +:+ b)
  = let major := or_default (parseInt10 a) 1 in
    if (parseInt10 b <? 9)%N
    then pretty major +:+ "." +:+ pretty (parseInt10 b + 1)%N
    else pretty (major + 1)%N +:+ ".0".
Proof.
  intros Ha Hb Hda Hdb.
  assert (match_version (a +:+ "." +:+ b) = Some (a, b)) as Hm
    by by apply match_version_Some.
  unfold bumpVersion, parseVersion. rewrite Hm.
  cbn [major minor]. unfold or_default at 1 3 5.
  destruct (N.eqb_spec (parseInt10 b) 0) as [->|]; done.
Qed.

End VersionMore.

(** X1: whatever string comes in, [bumpVersion] returns a version of the
    form digits, dot, digits; read again it gives a major of at least one
    and a minor of at most nine, namely the bumped numbers, and these
    are greater than the ones read from the input (major first). *)
Theorem bumpVersion_closed (v : string) :
  (Version.major (Version.parseVersion v) < 2 ^ 53 - 1)%N →
  let old := Version.parseVersion v in
  let new := Version.parseVersion (Version.bumpVersion v) in
  Version.version_format (Version.bumpVersion v)
  ∧ new = (if (Version.minor old <? 9)%N
           then {| Version.major := Version.major old;
                   Version.minor := Version.minor old + 1 |}
           else {| Version.major := Version.major old + 1;
                   Version.minor := 0 |})
  ∧ (1 ≤ Version.major new)%N ∧ (Version.minor new ≤ 9)%N
  ∧ (Version.major old < Version.major new
     ∨ (Version.major old = Version.major new
        ∧ Version.minor old < Version.minor new))%N.
Proof.
  intros _ old new.
  pose proof (VersionMore.major_pos v) as Hpos. fold old in Hpos.
  assert (new = if (Version.minor old <? 9)%N
                then {| Version.major := Version.major old;
                        Version.minor := Version.minor old + 1 |}
                else {| Version.major := Version.major old + 1;
                        Version.minor := 0 |}) as Hnew.
  { unfold new, Version.bumpVersion. fold old.
    destruct (Version.minor old <? 9)%N.
    - rewrite VersionMore.parseVersion_pretty.
      by rewrite VersionMore.or_default_id by lia.
    - change ".0" with ("." +:+ pretty 0%N).
      rewrite VersionMore.parseVersion_pretty.
      by rewrite VersionMore.or_default_id by lia. }
  split.
  - unfold Version.bumpVersion. fold old.
    destruct (Version.minor old <? 9)%N;
      [|change ".0" with ("." +:+ pretty 0%N)];
      apply VersionMore.version_format_pretty.
  - split; [exact Hnew|]. rewrite Hnew.
    destruct (N.ltb_spec (Version.minor old) 9); simpl; lia.
Qed.

(** A malformed string and a version with a large minor. *)
Lemma bumpVersion_closed_witness :
  (Version.major (Version.parseVersion "1.15") < 2 ^ 53 - 1)%N
  ∧ Version.version_format (Version.bumpVersion "1.15")
  ∧ Version.parseVersion (Version.bumpVersion "1.15")
    = {| Version.major := 2; Version.minor := 0 |}.
Proof.
  assert (Version.major (Version.parseVersion "1.15") < 2 ^ 53 - 1)%N as H
    by reflexivity.
  split; [exact H|].
  split; [exact (proj1 (bumpVersion_closed "1.15" H))|].
  exact (proj1 (proj2 (bumpVersion_closed "1.15" H))).
Defined.

(** X2: on a string of the form digits, dot, digits only the numbers
    count: with a major of at least one the result is major and minor
    plus one in decimal, or major plus one and "0" when the minor is nine
    or more; leading zeros are not kept. *)
Theorem bumpVersion_numbers (a b : string) :
  a ≠ "" → b ≠ "" → Version.all_digits a → Version.all_digits b →
  (1 ≤ Version.parseInt10 a < 2 ^ 53 - 1)%N →
  Version.bumpVersion (a +:+ "." +:+ b)
  = if (Version.parseInt10 b <? 9)%N
    then pretty (Version.parseInt10 a) +:+ "."
         +:+ pretty (Version.parseInt10 b + 1)%N
    else pretty (Version.parseInt10 a + 1)%N +:+ ".0".
Proof.
  intros Ha Hb Hda Hdb [Hlo _].
  rewrite VersionMore.bumpVersion_digits by done.
  cbv zeta. by rewrite VersionMore.or_default_id by lia.
Qed.

Lemma bumpVersion_numbers_witness :
  Version.bumpVersion "007.09" = "8.0" ∧ Version.bumpVersion "12.3" = "12.4".
Proof.
  split.
  - refine (bumpVersion_numbers "007" "09" _ _ _ _ _);
      [discriminate|discriminate|by repeat split|by repeat split|by split].
  - refine (bumpVersion_numbers "12" "3" _ _ _ _ _);
      [discriminate|discriminate|by repeat split|by repeat split|by split].
Defined.

(** ** The earlier version bump *)

Module LegacyFacts.
Import Version Legacy.
#[local] Arguments String.append !_ _ / : simpl nomatch.














End LegacyFacts.





(** ** Reachable states *)

Module ReachFacts.
Import Data App Persist Events RoundTrip Reach.


























End ReachFacts.







(** ** Single events *)

Module EventFacts.
Import Data App Persist Events RoundTrip Reach.

Lemma process_editorEffect st : process (editorEffect st) = process st.
Proof.
  unfold editorEffect. destruct (process st) as [p|] eqn:Hp; [|done].
  by destruct (steps p !! currentIndex st).
Qed.

Lemma currentIndex_editorEffect st :
  currentIndex (editorEffect st) = currentIndex st.
Proof.
  unfold editorEffect. destruct (process st) as [p|] eqn:Hp; [|done].
  by destruct (steps p !! currentIndex st).
Qed.

Lemma finalized_editorEffect st :
  finalized (editorEffect st) = finalized st.
Proof.
  unfold editorEffect. destruct (process st) as [p|] eqn:Hp; [|done].
  by destruct (steps p !! currentIndex st).
Qed.

Lemma lastSnapshot_editorEffect st :
  lastSnapshot (editorEffect st) = lastSnapshot st.
Proof.
  unfold editorEffect. destruct (process st) as [p|] eqn:Hp; [|done].
  by destruct (steps p !! currentIndex st).
Qed.




End EventFacts.



(** ** Finishing a step, going back, finalising *)

Module StepFacts.
Import Data App Persist Events RoundTrip Reach.

(** The record [finishStep] stores. *)
Lemma finishStep_result st p s :
  process st = Some p → steps p !! currentIndex st = Some s →
  canFinishStep st = true →
  let l := alter (set_done true) (currentIndex st)
             (steps (write_pending st p)) in
  finishStep st
  = clearEditor (setCurrentIndex (S (currentIndex st))
      (setFinalized false (setProcess
        (Some (ensureIndices
           (set_steps (l ++ [new_step (length l)]) (write_pending st p))))
        st))).
Proof.
  intros Hp Hs Hcan l. unfold finishStep. rewrite Hp, Hcan.
  unfold commitStepEdits, finishStep_mutator. rewrite Hp.
  assert (is_Some (steps (write_pending st p) !! currentIndex st)) as [s' Hs'].
  { simpl. rewrite list_lookup_alter_eq, Hs. by eexists. }
  by rewrite Hs'.
Qed.

Lemma lookup_renumber l i :
  renumber l !! i = set_index (position i) <$> l !! i.
Proof. unfold renumber. by rewrite list_lookup_imap. Qed.

Lemma length_renumber l : length (renumber l) = length l.
Proof. unfold renumber. by rewrite length_imap. Qed.

(** The preview skips the empty steps, so cutting off an empty last step
    does not change it. *)
Lemma filter_drop_last (l : list StepData) e :
  last l = Some e → is_empty_step e = true →
  filter (fun s => is_empty_step s = false) (take (length l - 1) l)
  = filter (fun s => is_empty_step s = false) l.
Proof.
  intros He Hempty.
  destruct (last_Some l e) as [[l' ->] _]; [done|].
  rewrite length_app. simpl.
  replace (length l' + 1 - 1)%nat with (length l') by lia.
  rewrite take_app_length, filter_app, filter_cons_False, filter_nil.
  - by rewrite app_nil_r.
  - by rewrite Hempty.
Qed.

Lemma positional_alter_content ph tx i l :
  positional l → positional (alter (set_content ph tx) i l).
Proof.
  intros Hl j s. destruct (decide (i = j)) as [<-|Hne].
  - rewrite list_lookup_alter_eq.
    destruct (l !! i) as [s0|] eqn:Hs0; [|done]. intros [= <-].
    simpl. by apply Hl.
  - rewrite list_lookup_alter_ne by done. apply Hl.
Qed.

Lemma positional_take n l : positional l → positional (take n l).
Proof.
  intros Hl j s Hj. apply lookup_take_Some in Hj as [Hj _]. by apply Hl.
Qed.

Lemma positional_drop_last_empty p :
  positional (steps p) → positional (steps (drop_last_empty p)).
Proof.
  intros Hp. unfold drop_last_empty. repeat case_match; try done.
  simpl. by apply positional_take.
Qed.

Lemma preview_drop_last_empty p :
  View.preview (drop_last_empty p) = View.preview p.
Proof.
  unfold View.preview, drop_last_empty.
  destruct (last (steps p)) as [e|] eqn:He; [|done].
  destruct (is_empty_step e) eqn:Hempty; [|done].
  simpl. by eapply filter_drop_last.
Qed.

Lemma run_two f e1 e2 st st1 st2 :
  dispatch f e1 st = Some st1 → dispatch f e2 st1 = Some st2 →
  run f [e1; e2] st = Some st2.
Proof.
  intros H1 H2.
  change (run f [e1; e2] st)
    with (dispatch f e1 st ≫= fun st' =>
          dispatch f e2 st' ≫= fun st'' => Some st'').
  rewrite H1. cbn [mbind option_bind]. rewrite H2. done.
Qed.

End StepFacts.

(** X9: finishing a step and going back shows what was entered. From a
    state whose current step exists and whose buffers hold a photo and a
    text, "finish step" followed by "step back" ends at the same index
    with the same photos and texts in the buffers; the process has one
    step more and the step left behind holds the buffers and is marked
    done. *)
Theorem finishStep_backStep_round_trip
    (fraction_toString : Q → string) (st : App.State)
    (p : Data.ProcessData) (s : Data.StepData) :
  App.process st = Some p →
  Data.steps p !! App.currentIndex st = Some s →
  App.canFinishStep st = true →
  ∃ st2 p2,
    Events.run fraction_toString
      [Events.ClickFinishStep; Events.ClickBackStep] st = Some st2
    ∧ App.process st2 = Some p2
    ∧ App.currentIndex st2 = App.currentIndex st
    ∧ App.pendingPhotos st2 = App.pendingPhotos st
    ∧ App.pendingTexts st2 = App.pendingTexts st
    ∧ length (Data.steps p2) = S (length (Data.steps p))
    ∧ Data.steps p2 !! App.currentIndex st
      = Some {| Data.index := Data.position (App.currentIndex st);
                Data.photos := App.pendingPhotos st;
                Data.texts := App.pendingTexts st;
                Data.done := Some true |}.
Proof.
  intros Hp Hs Hcan.
  pose proof (StepFacts.finishStep_result st p s Hp Hs Hcan) as Hfin.
  cbv zeta in Hfin.
  set (l := alter (Data.set_done true) (App.currentIndex st)
              (Data.steps (App.write_pending st p))) in *.
  set (p1 := Data.ensureIndices
               (Data.set_steps (l ++ [Data.new_step (length l)])
                  (App.write_pending st p))) in *.
  assert (length l = length (Data.steps p)) as Hlen.
  { unfold l. simpl. by rewrite !length_alter. }
  assert (l !! (App.currentIndex st) = Some (Data.set_done true
            (Data.set_content (App.pendingPhotos st)
               (App.pendingTexts st) s))) as Hlk.
  { unfold l. simpl. by rewrite !list_lookup_alter_eq, Hs. }
  assert (is_Some ((l ++ [Data.new_step (length l)]) !! S (App.currentIndex st))) as [s1 Hs1].
  { apply lookup_lt_is_Some. rewrite length_app. simpl.
    apply lookup_lt_Some in Hlk. lia. }
  (* the state after "finish step" and the effect *)
  set (st1 := App.editorEffect (App.finishStep st)).
  assert (Events.dispatch fraction_toString Events.ClickFinishStep st
          = Some st1) as Hd1.
  { unfold Events.dispatch. simpl. rewrite decide_False; [done|].
    rewrite Hfin. simpl. lia. }
  assert (App.process st1 = Some p1) as Hp1.
  { unfold st1. rewrite EventFacts.process_editorEffect. by rewrite Hfin. }
  assert (App.currentIndex st1 = S (App.currentIndex st)) as Hk1.
  { unfold st1. rewrite EventFacts.currentIndex_editorEffect.
    by rewrite Hfin. }
  (* the state after "step back" and the effect *)
  set (p2 := Data.ensureIndices (App.write_pending st1 p1)).
  assert (App.backStep st1
          = App.setCurrentIndex (App.currentIndex st) (App.setFinalized false
              (App.setProcess (Some p2) st1))) as Hback.
  { unfold App.backStep, App.commitStepEdits. by rewrite Hk1, Hp1. }
  assert (Data.steps p2 !! (App.currentIndex st)
          = Some {| Data.index := Data.position (App.currentIndex st);
                    Data.photos := App.pendingPhotos st;
                    Data.texts := App.pendingTexts st;
                    Data.done := Some true |}) as Hstep.
  { unfold p2. simpl. fold (Reach.renumber
      (alter (Data.set_content (App.pendingPhotos st1) (App.pendingTexts st1))
         (App.currentIndex st1) (Data.steps p1))).
    rewrite StepFacts.lookup_renumber, Hk1.
    rewrite list_lookup_alter_ne by lia.
    unfold p1. simpl. fold (Reach.renumber (l ++ [Data.new_step (length l)])).
    rewrite StepFacts.lookup_renumber.
    rewrite lookup_app_l by (apply lookup_lt_Some in Hlk; lia).
    by rewrite Hlk. }
  exists (App.editorEffect (App.backStep st1)), p2.
  split; [|split; [|split; [|split; [|split; [|split]]]]].
  - apply (StepFacts.run_two _ _ _ _ st1); [exact Hd1|].
    unfold Events.dispatch. simpl.
    rewrite decide_False; [done|]. rewrite Hback. simpl. lia.
  - rewrite EventFacts.process_editorEffect. by rewrite Hback.
  - rewrite EventFacts.currentIndex_editorEffect. by rewrite Hback.
  - unfold App.editorEffect. rewrite Hback.
    cbn [App.process App.currentIndex App.setCurrentIndex App.setFinalized
         App.setProcess].
    by rewrite Hstep.
  - unfold App.editorEffect. rewrite Hback.
    cbn [App.process App.currentIndex App.setCurrentIndex App.setFinalized
         App.setProcess].
    by rewrite Hstep.
  - unfold p2. simpl. rewrite length_imap, length_alter.
    unfold p1. simpl. rewrite length_imap, length_app, Hlen. simpl. lia.
  - exact Hstep.
Qed.

Lemma finishStep_backStep_round_trip_witness :
  let f := Pdf.fraction_toString Sample.a4 in
  App.canFinishStep Sessions.after_filling = true
  ∧ ∃ st2, Events.run f [Events.ClickFinishStep; Events.ClickBackStep]
             Sessions.after_filling = Some st2
           ∧ App.currentIndex st2 = 0%nat
           ∧ App.pendingPhotos st2 = ["foto"].
Proof.
  assert (App.canFinishStep Sessions.after_filling = true) as Hcan
    by reflexivity.
  split; [exact Hcan|].
  destruct (finishStep_backStep_round_trip (Pdf.fraction_toString Sample.a4)
              Sessions.after_filling _ _ eq_refl eq_refl Hcan)
    as (st2 & p2 & Hrun & _ & Hk & Hph & _).
  exists st2. split; [exact Hrun|]. split; [exact Hk|exact Hph].
Defined.

(** X10: finalising changes nothing of what the preview lists: with the
    steps numbered by position (as they are in every reachable state),
    the steps with content of the finalized record are those of the
    record with the buffers written into the current step, numbers
    included; at most one step, an empty last one, is gone. *)
Theorem finishProcess_keeps_preview (st : App.State) (p p' : Data.ProcessData) :
  App.process st = Some p →
  (∀ i s, Data.steps p !! i = Some s → Data.index s = Data.position i) →
  App.process (App.finishProcess st) = Some p' →
  View.preview p' = View.preview (App.write_pending st p)
  ∧ (length (Data.steps p) - 1 ≤ length (Data.steps p')
     ≤ length (Data.steps p))%nat.
Proof.
  intros Hp Hpos Hp'.
  destruct (FinalizeFacts.finishProcess_process st p Hp) as (Hres & _).
  rewrite Hres in Hp'. clear Hres.
  set (wp := App.write_pending st p) in *.
  assert (RoundTrip.positional (Data.steps (App.drop_last_empty wp))) as Hd.
  { apply StepFacts.positional_drop_last_empty.
    by apply StepFacts.positional_alter_content. }
  assert (Data.steps p' = Data.steps (App.drop_last_empty wp)) as Hsteps.
  { assert (Data.steps p'
            = Data.steps (Data.ensureIndices (App.drop_last_empty wp))) as ->
      by (destruct (decide _); by injection Hp' as <-).
    simpl. by apply LoadFacts.positional_renumber. }
  split.
  - unfold View.preview at 1. rewrite Hsteps.
    apply StepFacts.preview_drop_last_empty.
  - rewrite Hsteps. unfold App.drop_last_empty.
    assert (length (Data.steps wp) = length (Data.steps p)) as <-
      by (simpl; by rewrite length_alter).
    destruct (last (Data.steps wp)) as [e|]; [|lia].
    destruct (Data.is_empty_step e); [|lia].
    simpl. rewrite length_take. lia.
Qed.

Lemma finishProcess_keeps_preview_witness :
  ∃ p', App.process (App.finishProcess Sessions.after_one_step) = Some p'
        ∧ length (View.preview p') = 1%nat
        ∧ View.preview p'
          = View.preview (App.write_pending Sessions.after_one_step
              Sessions.record_after_one_step).
Proof.
  eexists. split; [reflexivity|]. split; [reflexivity|].
  refine (proj1 (finishProcess_keeps_preview Sessions.after_one_step
                   _ _ eq_refl _ eq_refl)).
  intros [|[|i]] s; simpl; intros [= <-]; reflexivity.
Defined.

(** ** Loading *)

Module LoadMore.
Import Data App Persist Events RoundTrip Reach.





End LoadMore.





(** ** File names *)

Module NameFacts.
Import Data Names.
#[local] Arguments String.append !_ _ / : simpl nomatch.

Section Pattern.
Variable white : ascii → bool.
Hypothesis underscore : white "_"%char = false.

Lemma solid_replace_runs b s : solid white (replace_runs white b s).
Proof.
  revert b. induction s as [|c r IH]; intros b; simpl; [done|].
  destruct (white c) eqn:Hc.
  - destruct b; [apply IH|]. simpl. split; [done|apply IH].
  - simpl. split; [done|apply IH].
Qed.

Lemma replace_runs_solid b s :
  solid white s → replace_runs white b s = s.
Proof.
  revert b. induction s as [|c r IH]; intros b; simpl; [done|].
  intros [-> Hr]. by rewrite IH.
Qed.

Lemma length_replace_runs b s :
  (String.length (replace_runs white b s) ≤ String.length s)%nat.
Proof.
  revert b. induction s as [|c r IH]; intros b; simpl; [done|].
  destruct (white c); [destruct b|]; simpl;
    try (pose proof (IH true)); try (pose proof (IH false)); lia.
Qed.

Lemma solid_app s t : solid white s → solid white t → solid white (s +:+ t).
Proof. induction s as [|c r IH]; simpl; [done|]. intros [? ?] ?. auto. Qed.

End Pattern.
End NameFacts.

(** X13: whatever set of characters the pattern [\s] stands for, as long
    as the underscore is not among them: the name with its runs of
    white space replaced holds no white space and is no longer than the
    name; a name without white space is kept as it is, so replacing
    twice is replacing once; and the two file names are this string
    followed by "_Prozess.json" and "_Prozess.pdf". *)
Theorem file_name_without_white_space
    (white : ascii → bool) (p : Data.ProcessData) :
  white "_"%char = false →
  let base := Names.underscored white (Data.name p) in
  Names.solid white base
  ∧ (String.length base ≤ String.length (Data.name p))%nat
  ∧ (Names.solid white (Data.name p) → base = Data.name p)
  ∧ Names.underscored white base = base
  ∧ Names.saveName white p = base +:+ "_Prozess.json"
  ∧ Names.pdfName white p = base +:+ "_Prozess.pdf".
Proof.
  intros Hu base.
  assert (Names.solid white base) as Hsolid
    by by apply NameFacts.solid_replace_runs.
  split; [exact Hsolid|].
  split; [apply NameFacts.length_replace_runs|].
  split; [apply NameFacts.replace_runs_solid|].
  split; [by apply NameFacts.replace_runs_solid|done].
Qed.

Lemma file_name_without_white_space_witness :
  let p := {| Data.name := "Waren  eingang prüfen"; Data.version := "1.0";
              Data.createdAt := ""; Data.steps := [] |} in
  App.is_space "_"%char = false
  ∧ Names.solid App.is_space (Names.underscored App.is_space (Data.name p))
  ∧ Names.saveName App.is_space p = "Waren_eingang_prüfen_Prozess.json".
Proof.
  intros p.
  assert (App.is_space "_"%char = false) as Hu by reflexivity.
  split; [exact Hu|]. split.
  - exact (proj1 (file_name_without_white_space App.is_space p Hu)).
  - exact (proj1 (proj2 (proj2 (proj2 (proj2
      (file_name_without_white_space App.is_space p Hu)))))).
Defined.

(** ** Scaling, once more *)


(** ** Reading order *)

Module FlowFacts.
Import Data Pdf Flow.
Local Open Scope Q_scope.

Lemma in_order_snoc tr o :
  in_order tr → Forall (fun o1 => follows o1 o) tr → in_order (tr ++ [o]).
Proof.
  intros Htr Ho i j o1 o2 Hij H1 H2.
  apply lookup_lt_Some in H2 as Hj. rewrite length_app in Hj. simpl in Hj.
  assert (i < length tr)%nat as Hi by lia.
  rewrite lookup_app_l in H1 by done.
  destruct (decide (j = length tr)) as [->|Hne].
  - rewrite list_lookup_middle in H2 by done. injection H2 as <-.
    exact (Forall_lookup_1 _ _ _ _ Ho H1).
  - rewrite lookup_app_l in H2 by lia. exact (Htr i j o1 o2 Hij H1 H2).
Qed.

Lemma before_follows st o1 o sh x c :
  before st o1 →
  follows o1 {| op_page := page st; op_x := x; op_y := y st;
                op_origin := o; op_shape := sh; op_font := font st;
                op_size := size st; op_color := c |}.
Proof. intros (_ & _ & [Hlt|[Heq Hy]]); [by left|by right]. Qed.

(** The cursor moves down, on the same page. *)
Lemma flowing_down st st' :
  ops st' = ops st → page st' = page st → pages st' = pages st →
  y st <= y st' → flowing st → flowing st'.
Proof.
  intros Ho Hp Hps Hy (Hlast & H1 & Hord & Hbef & Hcon).
  unfold flowing. rewrite Ho, Hp, Hps. repeat split; try done.
  eapply Forall_impl; [exact Hbef|].
  intros o (Hpos & Hroom & [Hlt|[Heq Hle]]); (split; [done|split; [done|]]).
  - left. by rewrite Hp.
  - right. rewrite Hp. split; [done|lra].
Qed.

Lemma flowing_advance d st : 0 <= d → flowing st → flowing (advance d st).
Proof.
  intros Hd. apply flowing_down; try done.
  change (y st <= y st + d). lra.
Qed.

Lemma flowing_font f n st :
  flowing st → flowing (setFontSize n (setFont f st)).
Proof. apply flowing_down; try done. apply Qle_refl. Qed.

Lemma flowing_style f c st :
  flowing st → flowing (setFont f (setTextColor c st)).
Proof. apply flowing_down; try done. apply Qle_refl. Qed.

Lemma flowing_addPage st : flowing st → flowing (addPage st).
Proof.
  intros (Hlast & H1 & Hord & Hbef & Hcon). unfold flowing. simpl.
  repeat split; try done; [lia|].
  eapply Forall_impl; [exact Hbef|].
  intros o (Hpos & Hroom & Hb). split; [done|]. split; [done|]. left. simpl.
  destruct Hb as [?|[? _]]; lia.
Qed.

Lemma flowing_ensureSpace E needed st :
  flowing st → flowing (ensureSpace E needed st).
Proof.
  intros Hst. unfold ensureSpace. destruct (Qltb _ _); [|done].
  by apply flowing_addPage.
Qed.

(** One drawing operation at the cursor, and the cursor moved below its
    room. *)
Lemma flowing_draw o sh x c d st :
  match o with Footer _ => False | _ => True end →
  0 <= room_of o sh → room_of o sh <= d →
  flowing st → flowing (advance d (draw o sh x (y st) c st)).
Proof.
  intros Ho Hd Hroom (Hlast & H1 & Hord & Hbef & Hcon).
  unfold flowing. simpl. repeat split; try done.
  - apply in_order_snoc; [done|].
    eapply Forall_impl; [exact Hbef|]. intros o1. apply before_follows.
  - apply Forall_app. split.
    + eapply Forall_impl; [exact Hbef|].
      intros o1 (Hpos & Hr & [Hlt|[Heq Hle]]);
        (split; [done|split; [done|]]); [by left|right].
      simpl. split; [done|lra].
    + apply Forall_singleton. split; [done|]. split; [done|]. right. simpl.
      split; [done|]. unfold room. simpl. lra.
  - apply Forall_app. split; [done|]. by apply Forall_singleton.
Qed.

Section Layout.
Variable E : Platform.
Hypothesis wide : 72 < pageW E.
Hypothesis tall : 72 < pageH E.

Lemma flowing_drawLines s i li n lines st :
  flowing st → flowing (drawLines s i li n lines st).
Proof.
  revert li st. induction lines as [|l r IH]; intros li st Hst; simpl;
    [done|].
  apply IH. unfold text.
  apply flowing_draw; [done|cbn [room_of]; lra|cbn [room_of]; lra|done].
Qed.

Lemma flowing_drawText s i idx t st :
  flowing st → flowing (drawText E s i idx t st).
Proof.
  intros Hst. unfold drawText. cbv zeta.
  apply flowing_advance; [lra|]. apply flowing_drawLines.
  destruct (important t); by apply flowing_style, flowing_ensureSpace.
Qed.

Lemma flowing_drawTexts s i idx l st :
  flowing st → flowing (drawTexts E s i idx l st).
Proof.
  revert i st. induction l as [|t r IH]; intros i st Hst; simpl; [done|].
  by apply IH, flowing_drawText.
Qed.

Lemma flowing_drawPhoto s p url st :
  flowing st → flowing (drawPhoto E s p url st).
Proof.
  intros Hst. unfold drawPhoto.
  destruct (loadImage E url) as [im|]; [|done]. cbv zeta.
  destruct (ScaleFacts.scaled_height_fits E wide tall im) as [Hh _].
  destruct (addImage E url); [|by apply flowing_ensureSpace].
  apply flowing_draw; [done|cbn [room_of]; lra|cbn [room_of]; lra|].
  by apply flowing_ensureSpace.
Qed.

Lemma flowing_drawPhotos s p l st :
  flowing st → flowing (drawPhotos E s p l st).
Proof.
  revert p st. induction l as [|url r IH]; intros p st Hst; simpl; [done|].
  by apply IH, flowing_drawPhoto.
Qed.

Lemma flowing_drawStep s step st :
  flowing st → flowing (drawStep E s step st).
Proof.
  intros Hst. unfold drawStep. destruct (is_empty_step step); [done|].
  cbv zeta. apply flowing_advance; [lra|].
  apply flowing_drawTexts, flowing_font, flowing_drawPhotos.
  unfold text.
  set (st1 := setFontSize 13 (setFont bold
                (if Qltb (spaceLeft E st) (reserve E step)
                 then addPage st else st))).
  apply (flowing_draw (Heading s) _ _ _ 20 st1); [done|cbn [room_of]; lra|cbn [room_of]; lra|].
  apply flowing_font. destruct (Qltb _ _); [by apply flowing_addPage|done].
Qed.

Lemma flowing_drawSteps s l st :
  flowing st → flowing (drawSteps E s l st).
Proof.
  revert s st. induction l as [|step r IH]; intros s st Hst; simpl; [done|].
  by apply IH, flowing_drawStep.
Qed.

Lemma flowing_new_doc : flowing (new_doc margin).
Proof.
  unfold flowing. simpl. repeat split; try done.
Qed.

Lemma flowing_drawHeader p : flowing (drawHeader E p (new_doc margin)).
Proof.
  unfold drawHeader. cbv zeta. unfold text.
  set (st0 := setFontSize 16 (setFont bold (new_doc margin))).
  assert (flowing st0) as H0 by apply flowing_font, flowing_new_doc.
  set (st1 := advance 18 (draw Title (Text (name p) AlignLeft) margin
                            (y st0) (color st0) st0)).
  assert (flowing st1) as H1
    by (apply flowing_draw; [done|cbn [room_of]; lra|cbn [room_of]; lra|done]).
  set (st2 := setFontSize 10 (setFont normal st1)).
  assert (flowing st2) as H2 by by apply flowing_font.
  match goal with
  | |- flowing (advance 10 (draw Rule ?sh margin _ ?c
                  (setDrawColor 200 (advance 14 (draw Meta ?t margin _ ?c2 _))))) =>
      set (st3 := advance 14 (draw Meta t margin (y st2) c2 st2))
  end.
  assert (flowing st3) as H3
    by (apply flowing_draw; [done|cbn [room_of]; lra|cbn [room_of]; lra|done]).
  set (st4 := setDrawColor 200 st3).
  assert (flowing st4) as H4
    by (apply (flowing_down st3); try done; apply Qle_refl).
  apply (flowing_draw Rule _ _ _ 10 st4); [done|cbn [room_of]; lra|cbn [room_of]; lra|done].
Qed.

Lemma flowing_layout p : flowing (layout E p).
Proof. apply flowing_drawSteps, flowing_drawHeader. Qed.

End Layout.

(** The footer pass. *)
Lemma pages_drawFooters_fold E p total l st :
  pages (foldl (fun st pg => drawFooter E p total pg st) st l) = pages st.
Proof.
  revert st. induction l as [|pg r IH]; intros st; simpl; [done|].
  by rewrite IH.
Qed.

Lemma page_numbers_fold E p total l st :
  page_numbers (foldl (fun st pg => drawFooter E p total pg st) st l)
  = page_numbers st
    ++ ((fun pg => (pg, "Seite " +:+ pretty pg +:+ " von " +:+ pretty total))
          <$> l).
Proof.
  revert st. induction l as [|pg r IH]; intros st; simpl.
  - by rewrite app_nil_r.
  - rewrite IH. unfold page_numbers at 1. simpl.
    rewrite !omap_app. simpl. rewrite <-!app_assoc. done.
Qed.

Lemma omap_page_number_content l :
  Forall content l → omap page_number l = [].
Proof.
  induction 1 as [|o l Ho _ IH]; [done|].
  cbn [omap list_omap]. fold (omap page_number l). rewrite IH.
  unfold content in Ho. unfold page_number. by destruct (op_origin o).
Qed.

Lemma page_numbers_content st :
  Forall content (ops st) → page_numbers st = [].
Proof. apply omap_page_number_content. Qed.

End FlowFacts.



(** X16: the footer pass adds no page and numbers every page: the
    document has as many pages T as the layout, three more drawing
    operations per page, and its page numbers, in the order drawn, are
    "Seite 1 von T" on page 1 up to "Seite T von T" on page T. *)
Theorem footers_number_every_page (E : Pdf.Platform) (p : Data.ProcessData) :
  (72 < Pdf.pageW E)%Q → (72 < Pdf.pageH E)%Q →
  let doc := Pdf.render E p in
  let T := Pdf.pages doc in
  T = Pdf.pages (Pdf.layout E p) ∧ (1 ≤ T)%nat
  ∧ length (Pdf.ops doc)
    = (length (Pdf.ops (Pdf.layout E p)) + 3 * T)%nat
  ∧ Flow.page_numbers doc
    = (fun pg => (pg, "Seite " +:+ pretty pg +:+ " von " +:+ pretty T))
        <$> seq 1 T.
Proof.
  intros Hw Hh doc T.
  destruct (FlowFacts.flowing_layout E Hw Hh p)
    as (Hlast & H1 & _ & _ & Hcon).
  assert (T = Pdf.pages (Pdf.layout E p)) as HT
    by apply FlowFacts.pages_drawFooters_fold.
  split; [exact HT|]. split; [lia|]. split.
  - destruct (ColorFacts.footers_inherit_color E p (Pdf.layout E p))
      as (new & Hops & Hlen & _).
    unfold doc, Pdf.render. rewrite Hops, length_app, Hlen, HT. done.
  - rewrite HT. unfold doc, Pdf.render, Pdf.drawFooters.
    rewrite FlowFacts.page_numbers_fold.
    by rewrite FlowFacts.page_numbers_content.
Qed.

Lemma footers_number_every_page_witness :
  let E := Sample.a4 in
  (72 < Pdf.pageW E)%Q ∧ (72 < Pdf.pageH E)%Q
  ∧ Flow.page_numbers (Pdf.render E Sample.warning_then_remark)
    = [(1%nat, "Seite 1 von 1")].
Proof.
  assert (72 < Pdf.pageW Sample.a4)%Q as Hw by reflexivity.
  assert (72 < Pdf.pageH Sample.a4)%Q as Hh by reflexivity.
  split; [exact Hw|]. split; [exact Hh|].
  exact (proj2 (proj2 (proj2 (footers_number_every_page Sample.a4
                  Sample.warning_then_remark Hw Hh)))).
Defined.


(** ** A current step that does not exist *)

(** X17: when the current step does not exist (the finalisation has cut
    it off as the empty last step), the editor cannot store what is
    entered: with a photo and a text in the buffers "finish step" leaves
    the state as it is (the assignment to the missing step throws), and
    the record "finish process" stores does not depend on the buffers. *)
Theorem missing_step_blocks_editor
    (fraction_toString : Q → string) (st : App.State) (p : Data.ProcessData) :
  App.process st = Some p →
  Data.steps p !! App.currentIndex st = None →
  (App.canFinishStep st = true →
   Events.dispatch fraction_toString Events.ClickFinishStep st = Some st)
  ∧ ∀ photos texts,
      App.process (App.finishProcess
        (App.setPendingTexts texts (App.setPendingPhotos photos st)))
      = App.process (App.finishProcess st).
Proof.
  intros Hp Hmiss.
  assert (∀ st', App.process st' = Some p →
            App.currentIndex st' = App.currentIndex st →
            App.write_pending st' p = p) as Hwp.
  { intros st' _ Hk. unfold App.write_pending. rewrite Hk.
    rewrite IdempotenceFacts.alter_fixed; [by destruct p|].
    intros x Hx. by rewrite Hmiss in Hx. }
  split.
  - intros Hcan. unfold Events.dispatch. simpl.
    assert (App.finishStep st = st) as ->.
    { unfold App.finishStep. rewrite Hp, Hcan.
      unfold App.commitStepEdits, App.finishStep_mutator. rewrite Hp.
      rewrite (Hwp st Hp eq_refl). by rewrite Hmiss. }
    by rewrite decide_True.
  - intros photos texts.
    set (st' := App.setPendingTexts texts (App.setPendingPhotos photos st)).
    destruct (FinalizeFacts.finishProcess_process st p Hp) as (-> & _).
    destruct (FinalizeFacts.finishProcess_process st' p Hp) as (-> & _).
    by rewrite (Hwp st Hp eq_refl), (Hwp st' Hp eq_refl).
Qed.

(** After one step and the finalisation the editor is in such a state. *)
Lemma missing_step_blocks_editor_witness :
  let f := Pdf.fraction_toString Sample.a4 in
  let st := App.setPendingTexts [Sample.remark]
              (App.setPendingPhotos ["foto"] Sessions.after_finished) in
  Events.run f Sessions.finished App.initial = Some Sessions.after_finished
  ∧ App.canFinishStep st = true
  ∧ Events.dispatch f Events.ClickFinishStep st = Some st.
Proof.
  intros f st.
  assert (App.canFinishStep st = true) as Hcan by reflexivity.
  split; [by vm_compute|]. split; [exact Hcan|].
  exact (proj1 (missing_step_blocks_editor f st _ eq_refl eq_refl) Hcan).
Defined.

(** ** The text and photo buffers *)

Module BufferFacts.
Import Data App.

Lemma toggle_twice i t :
  (fun t => if decide (id t = i)
            then {| id := id t; content := content t;
                    important := negb (important t) |}
            else t)
    ((fun t => if decide (id t = i)
               then {| id := id t; content := content t;
                       important := negb (important t) |}
               else t) t) = t.
Proof.
  simpl. destruct (decide (id t = i)) as [Hi|Hi]; simpl.
  - rewrite decide_True by done. destruct t as [? ? []]; done.
  - by rewrite decide_False.
Qed.

End BufferFacts.

(** X18: the buttons of a text item act on the items with its id only
    and keep the order. Toggling twice gives the buffer back; toggling
    keeps the number of items, their ids and contents and flips the
    flag of exactly the items with that id; removing leaves exactly the
    items with another id, and removing again changes nothing. *)
Theorem text_buttons_act_by_id (i : string) (st : App.State) :
  App.toggleImportant i (App.toggleImportant i st) = st
  ∧ Data.id <$> App.pendingTexts (App.toggleImportant i st)
    = Data.id <$> App.pendingTexts st
  ∧ Data.content <$> App.pendingTexts (App.toggleImportant i st)
    = Data.content <$> App.pendingTexts st
  ∧ (∀ k t, App.pendingTexts st !! k = Some t →
       ∃ t', App.pendingTexts (App.toggleImportant i st) !! k = Some t'
             ∧ Data.important t'
               = (if decide (Data.id t = i) then negb (Data.important t)
                  else Data.important t))
  ∧ (∀ t, t ∈ App.pendingTexts (App.removeText i st)
          ↔ t ∈ App.pendingTexts st ∧ Data.id t ≠ i)
  ∧ App.removeText i (App.removeText i st) = App.removeText i st.
Proof.
  split; [|split; [|split; [|split; [|split]]]].
  - unfold App.toggleImportant, App.setPendingTexts. simpl.
    rewrite <-list_fmap_compose.
    rewrite (list_fmap_ext _ (fun t => t) (App.pendingTexts st)).
    + rewrite list_fmap_id. by destruct st.
    + intros k t _. apply BufferFacts.toggle_twice.
  - simpl. rewrite <-list_fmap_compose. apply list_fmap_ext.
    intros k t _. simpl. by case_decide.
  - simpl. rewrite <-list_fmap_compose. apply list_fmap_ext.
    intros k t _. simpl. by case_decide.
  - intros k t Hk. simpl. rewrite list_lookup_fmap, Hk. simpl.
    eexists. split; [done|]. by case_decide.
  - intros t. simpl. rewrite list_elem_of_filter. tauto.
  - unfold App.removeText, App.setPendingTexts. simpl. f_equal.
    apply list_filter_filter_l. auto.
Qed.

(** ** Renumbering *)

(** X19: [ensureIndices] only renumbers. It keeps the number of steps
    and what they hold, gives the step at position i the number i + 1,
    changes nothing exactly when the steps are numbered by position
    already, and so does nothing when applied again. *)
Theorem ensureIndices_only_renumbers (p : Data.ProcessData) :
  (∀ i s, Data.steps p !! i = Some s →
     Data.steps (Data.ensureIndices p) !! i
     = Some {| Data.index := Data.position i; Data.photos := Data.photos s;
               Data.texts := Data.texts s; Data.done := Data.done s |})
  ∧ length (Data.steps (Data.ensureIndices p)) = length (Data.steps p)
  ∧ (Data.ensureIndices p = p ↔ RoundTrip.positional (Data.steps p))
  ∧ Data.ensureIndices (Data.ensureIndices p) = Data.ensureIndices p.
Proof.
  split; [|split; [|split]].
  - intros i s Hs. simpl. by rewrite list_lookup_imap, Hs.
  - simpl. by rewrite length_imap.
  - split.
    + intros Heq. rewrite <-Heq. apply LoadFacts.positional_ensureIndices.
    + intros Hpos. unfold Data.ensureIndices.
      rewrite LoadFacts.positional_renumber by done. by destruct p.
  - unfold Data.ensureIndices at 1.
    rewrite LoadFacts.positional_renumber
      by apply LoadFacts.positional_ensureIndices.
    by destruct p.
Qed.

(** ** Steps without content in the PDF *)

Module LookFacts.
Import Data Pdf Look.

Lemma same_refl st : same st st.
Proof. by repeat split. Qed.

Lemma same_draw o o' sh x y0 c st st' :
  same st st' → same (draw o sh x y0 c st) (draw o' sh x y0 c st').
Proof.
  intros (H1 & H2 & H3 & H4 & H5 & H6 & H7 & H8).
  unfold same. simpl. repeat split; try done.
  rewrite !fmap_app, H8. simpl. unfold strip. simpl. by rewrite H2, H4, H5.
Qed.

Lemma same_text o o' str a x y0 st st' :
  same st st' → same (text o str a x y0 st) (text o' str a x y0 st').
Proof.
  intros Hs. unfold text.
  replace (color st') with (color st) by apply Hs. by apply same_draw.
Qed.

Lemma same_advance d st st' :
  same st st' → same (advance d st) (advance d st').
Proof.
  intros (H1 & H2 & H3 & H4 & H5 & H6 & H7 & H8).
  unfold same. simpl. by rewrite H3.
Qed.

Lemma same_setFont f st st' :
  same st st' → same (setFont f st) (setFont f st').
Proof. intros (H1 & H2 & H3 & H4 & H5 & H6 & H7 & H8). by unfold same. Qed.

Lemma same_setFontSize n st st' :
  same st st' → same (setFontSize n st) (setFontSize n st').
Proof. intros (H1 & H2 & H3 & H4 & H5 & H6 & H7 & H8). by unfold same. Qed.

Lemma same_setTextColor c st st' :
  same st st' → same (setTextColor c st) (setTextColor c st').
Proof. intros (H1 & H2 & H3 & H4 & H5 & H6 & H7 & H8). by unfold same. Qed.

Lemma same_setPage n st st' :
  same st st' → same (setPage n st) (setPage n st').
Proof. intros (H1 & H2 & H3 & H4 & H5 & H6 & H7 & H8). by unfold same. Qed.

Lemma same_addPage st st' : same st st' → same (addPage st) (addPage st').
Proof.
  intros (H1 & H2 & H3 & H4 & H5 & H6 & H7 & H8).
  unfold same. simpl. by rewrite H1.
Qed.

Section Steps.
Variable E : Platform.

Lemma same_spaceLeft st st' : same st st' → spaceLeft E st = spaceLeft E st'.
Proof. intros (_ & _ & H3 & _). unfold spaceLeft. by rewrite H3. Qed.

Lemma same_ensureSpace needed st st' :
  same st st' → same (ensureSpace E needed st) (ensureSpace E needed st').
Proof.
  intros Hs. unfold ensureSpace. rewrite (same_spaceLeft st st' Hs).
  destruct (Qltb _ _); [by apply same_addPage|done].
Qed.

Lemma same_drawLines s s' i i' li li' n n' lines st st' :
  same st st' →
  same (drawLines s i li n lines st) (drawLines s' i' li' n' lines st').
Proof.
  revert li li' st st'. induction lines as [|l r IH];
    intros li li' st st' Hs; simpl; [done|].
  apply IH, same_advance.
  replace (y st') with (y st) by apply Hs. by apply same_text.
Qed.

Lemma same_drawText s s' i idx t st st' :
  same st st' → same (drawText E s i idx t st) (drawText E s' i idx t st').
Proof.
  intros Hs. unfold drawText. cbv zeta.
  replace (font st') with (font st) by apply Hs.
  replace (size st') with (size st) by apply Hs.
  apply same_advance, same_drawLines.
  destruct (important t);
    by apply same_setFont, same_setTextColor, same_ensureSpace.
Qed.

Lemma same_drawTexts s s' i idx l st st' :
  same st st' → same (drawTexts E s i idx l st) (drawTexts E s' i idx l st').
Proof.
  revert i st st'. induction l as [|t r IH]; intros i st st' Hs; simpl;
    [done|].
  by apply IH, same_drawText.
Qed.

Lemma same_drawPhoto s s' p url st st' :
  same st st' → same (drawPhoto E s p url st) (drawPhoto E s' p url st').
Proof.
  intros Hs. unfold drawPhoto. destruct (loadImage E url) as [im|]; [|done].
  cbv zeta.
  pose proof (same_ensureSpace (h (scaleDims E im)) st st' Hs) as Hs1.
  destruct (addImage E url); [|done].
  apply same_advance.
  replace (y (ensureSpace E (h (scaleDims E im)) st'))
    with (y (ensureSpace E (h (scaleDims E im)) st)) by apply Hs1.
  replace (color (ensureSpace E (h (scaleDims E im)) st'))
    with (color (ensureSpace E (h (scaleDims E im)) st)) by apply Hs1.
  by apply same_draw.
Qed.

Lemma same_drawPhotos s s' p l st st' :
  same st st' → same (drawPhotos E s p l st) (drawPhotos E s' p l st').
Proof.
  revert p st st'. induction l as [|url r IH]; intros p st st' Hs; simpl;
    [done|].
  by apply IH, same_drawPhoto.
Qed.

Lemma same_drawStep s s' step st st' :
  same st st' → same (drawStep E s step st) (drawStep E s' step st').
Proof.
  intros Hs. unfold drawStep. destruct (is_empty_step step); [done|].
  cbv zeta. apply same_advance, same_drawTexts, same_setFontSize,
    same_setFont, same_drawPhotos, same_advance.
  assert (same (setFontSize 13 (setFont bold
                  (if Qltb (spaceLeft E st) (reserve E step)
                   then addPage st else st)))
               (setFontSize 13 (setFont bold
                  (if Qltb (spaceLeft E st') (reserve E step)
                   then addPage st' else st')))) as Hs1.
  { apply same_setFontSize, same_setFont.
    rewrite (same_spaceLeft st st' Hs).
    destruct (Qltb _ _); [by apply same_addPage|done]. }
  match goal with
  | |- same (text _ _ _ _ (y ?a) _) (text _ _ _ _ (y ?b) _) =>
      replace (y b) with (y a) by apply Hs1
  end.
  by apply same_text.
Qed.

(** Steps without content are skipped, whatever their position. *)
Lemma same_drawSteps s s' l st st' :
  same st st' →
  same (drawSteps E s l st)
       (drawSteps E s' (filter (fun x => is_empty_step x = false) l) st').
Proof.
  revert s s' st st'. induction l as [|step r IH]; intros s s' st st' Hs;
    simpl; [done|].
  destruct (is_empty_step step) eqn:Hempty.
  - rewrite filter_cons_False by by rewrite Hempty.
    apply IH. unfold drawStep. by rewrite Hempty.
  - rewrite filter_cons_True by done. simpl.
    by apply IH, same_drawStep.
Qed.

Lemma same_drawFooter p total pg st st' :
  same st st' →
  same (drawFooter E p total pg st) (drawFooter E p total pg st').
Proof.
  intros Hs. unfold drawFooter. cbv zeta.
  by apply same_text, same_text, same_text, same_setFontSize, same_setFont,
    same_setPage.
Qed.

Lemma same_footers_fold p total l st st' :
  same st st' →
  same (foldl (fun st pg => drawFooter E p total pg st) st l)
       (foldl (fun st pg => drawFooter E p total pg st) st' l).
Proof.
  revert st st'. induction l as [|pg r IH]; intros st st' Hs; simpl; [done|].
  by apply IH, same_drawFooter.
Qed.

Lemma same_drawFooters p st st' :
  same st st' → same (drawFooters E p st) (drawFooters E p st').
Proof.
  intros Hs. unfold drawFooters.
  replace (pages st') with (pages st) by apply Hs.
  by apply same_footers_fold.
Qed.

End Steps.
End LookFacts.

(** X20: steps without content leave no trace in the PDF: the document
    of a process and the document of the process reduced to the steps
    the preview lists have the same number of pages and the same drawing
    operations (page, position, shape, font, size and colour), in the
    same order. *)
Theorem empty_steps_leave_no_trace (E : Pdf.Platform) (p : Data.ProcessData) :
  let shown := Data.set_steps (View.preview p) p in
  Pdf.pages (Pdf.render E p) = Pdf.pages (Pdf.render E shown)
  ∧ Look.strip <$> Pdf.ops (Pdf.render E p)
    = Look.strip <$> Pdf.ops (Pdf.render E shown).
Proof.
  intros shown.
  assert (Look.same (Pdf.render E p) (Pdf.render E shown)) as Hs.
  { unfold Pdf.render.
    assert (Look.same (Pdf.layout E p) (Pdf.layout E shown)) as Hl.
    { unfold Pdf.layout. apply LookFacts.same_drawSteps, LookFacts.same_refl. }
    apply (LookFacts.same_drawFooters E p) in Hl.
    exact Hl. }
  split; apply Hs.
Qed.

(** ** The first version: colours and completion of the export *)

Module LegacyPdfFacts.
Import Data Pdf LegacyPdf.

Lemma tidy_silent p st st' :
  ops st' = ops st → color st' = color st → tidy p st → tidy p st'.
Proof. intros Ho Hc [H1 H2]. unfold tidy. by rewrite Ho, Hc. Qed.

Lemma tidy_advance p d st : tidy p st → tidy p (advance d st).
Proof. by apply tidy_silent. Qed.

Lemma tidy_setFont p f st : tidy p st → tidy p (setFont f st).
Proof. by apply tidy_silent. Qed.

Lemma tidy_setFontSize p n st : tidy p st → tidy p (setFontSize n st).
Proof. by apply tidy_silent. Qed.

Lemma tidy_setPage p n st : tidy p st → tidy p (setPage n st).
Proof. by apply tidy_silent. Qed.

(** A drawing operation that writes no text item, in black. *)
Lemma tidy_draw p o sh x y0 st :
  match o with Line _ _ _ _ => False | _ => True end →
  tidy p st → tidy p (draw o sh x y0 (color st) st).
Proof.
  intros Ho [Hc Hops]. split; [done|]. simpl.
  apply Forall_app. split; [done|]. apply Forall_singleton.
  unfold lawful, item_of. simpl. rewrite Hc. by destruct o.
Qed.

Section Exporting.
Variable E : Platform.
Variable toLocaleDateString : string → string.
Variable p : ProcessData.

Lemma tidy_addPage st : tidy p st → tidy p (LegacyPdf.addPage st).
Proof. by apply tidy_silent. Qed.

Lemma tidy_drawPhoto s k url st st' :
  tidy p st → drawPhoto E s k url st = Some st' → tidy p st'.
Proof.
  intros Hst. unfold drawPhoto.
  destruct (loadImage E url) as [img|]; [|done]. cbv zeta.
  destruct (addImage E url); [|done]. intros [= <-].
  apply tidy_advance, tidy_draw; [done|].
  destruct (Qltb _ _); [by apply tidy_addPage|done].
Qed.

Lemma tidy_drawPhotos s k l st st' :
  tidy p st → drawPhotos E s k l st = Some st' → tidy p st'.
Proof.
  revert k st. induction l as [|url r IH]; intros k st Hst; simpl.
  - by intros [= <-].
  - destruct (drawPhoto E s k url st) as [st1|] eqn:H1; [|done]. simpl.
    apply IH. by eapply tidy_drawPhoto.
Qed.

Lemma tidy_drawText s i idx t st :
  (steps p !! s ≫= fun step => texts step !! i) = Some t →
  tidy p st → tidy p (drawText E s i idx t st).
Proof.
  intros Ht Hst. unfold drawText. cbv zeta.
  set (st1 := if Qltb _ _ then LegacyPdf.addPage st else st).
  assert (tidy p st1) as [Hc Hops]
    by (unfold st1; destruct (Qltb _ _); [by apply tidy_addPage|done]).
  destruct (important t) eqn:Himp.
  - split; [done|]. simpl. apply Forall_app. split; [done|].
    apply Forall_singleton. unfold lawful, item_of. simpl.
    by rewrite Ht, Himp.
  - split; [done|]. simpl. apply Forall_app. split; [done|].
    apply Forall_singleton. unfold lawful, item_of. simpl.
    by rewrite Ht, Himp.
Qed.

Lemma tidy_drawTexts s i idx l st :
  (∀ k t, l !! k = Some t →
     (steps p !! s ≫= fun step => texts step !! (i + k)%nat) = Some t) →
  tidy p st → tidy p (drawTexts E s i idx l st).
Proof.
  revert i st. induction l as [|t r IH]; intros i st Hl Hst; simpl; [done|].
  apply IH.
  - intros k t' Hk. replace (S i + k)%nat with (i + S k)%nat by lia.
    by apply Hl.
  - apply tidy_drawText; [|done].
    specialize (Hl 0%nat t eq_refl). by rewrite Nat.add_0_r in Hl.
Qed.

Lemma tidy_drawStep s step st st' :
  steps p !! s = Some step →
  tidy p st → drawStep E s step st = Some st' → tidy p st'.
Proof.
  intros Hs Hst. unfold drawStep.
  destruct (_ && _); [by intros [= <-]|]. cbv zeta.
  destruct (drawPhotos E s 0 (photos step) _) as [st1|] eqn:H1; [|done].
  simpl. intros [= <-].
  apply tidy_drawPhotos in H1.
  - apply tidy_advance, tidy_drawTexts;
      [|by apply tidy_setFontSize, tidy_setFont].
    intros k t Hk. rewrite Hs. simpl. done.
  - apply tidy_advance. unfold text. apply tidy_draw; [done|].
    apply tidy_setFontSize, tidy_setFont.
    destruct (Qltb _ _); [by apply tidy_addPage|done].
Qed.

Lemma tidy_drawSteps s l st st' :
  (∀ k step, l !! k = Some step → steps p !! (s + k)%nat = Some step) →
  tidy p st → drawSteps E s l st = Some st' → tidy p st'.
Proof.
  revert s st. induction l as [|step r IH]; intros s st Hl Hst; simpl.
  - by intros [= <-].
  - destruct (drawStep E s step st) as [st1|] eqn:H1; [|done]. simpl.
    apply IH.
    + intros k step' Hk. replace (S s + k)%nat with (s + S k)%nat by lia.
      by apply Hl.
    + eapply tidy_drawStep; [|done|done].
      specialize (Hl 0%nat step eq_refl). by rewrite Nat.add_0_r in Hl.
Qed.

Lemma tidy_drawHeader : tidy p (drawHeader E p (new_doc LegacyPdf.margin)).
Proof.
  unfold drawHeader. cbv zeta. unfold text.
  apply tidy_advance, tidy_draw; [done|].
  apply tidy_setFontSize, tidy_setFont, tidy_advance, tidy_draw; [done|].
  apply tidy_setFontSize, tidy_setFont. split; [done|]. by constructor.
Qed.

Lemma tidy_footers total l st :
  tidy p st →
  tidy p (foldl (fun st pg => drawFooter E toLocaleDateString p total pg st)
            st l).
Proof.
  revert st. induction l as [|pg r IH]; intros st Hst; simpl; [done|].
  apply IH. unfold drawFooter. cbv zeta. unfold text.
  apply tidy_draw; [done|]. by apply tidy_setFontSize, tidy_setPage.
Qed.

Lemma drawPhoto_None s k url st : drawPhoto E s k url st = None ↔ bad E url.
Proof.
  unfold drawPhoto, bad. destruct (loadImage E url); cbv zeta.
  - destruct (addImage E url); split; try done; [by intros [|]|by right].
  - split; [by left|done].
Qed.

Lemma drawPhotos_None s k l st :
  drawPhotos E s k l st = None ↔ ∃ url, url ∈ l ∧ bad E url.
Proof.
  revert k st. induction l as [|url r IH]; intros k st; simpl.
  - split; [done|]. intros (u & Hu & _). by apply elem_of_nil in Hu.
  - destruct (drawPhoto E s k url st) as [st1|] eqn:H1; simpl.
    + rewrite IH. split.
      * intros (u & Hu & Hb). exists u. split; [by right|done].
      * intros (u & Hu & Hb). apply elem_of_cons in Hu as [->|Hu].
        -- assert (drawPhoto E s k url st = None) as Hn
             by by apply drawPhoto_None.
           by rewrite H1 in Hn.
        -- by exists u.
    + split; [|done]. intros _. exists url. split; [by left|].
      by eapply drawPhoto_None.
Qed.

Lemma drawStep_None s step st :
  drawStep E s step st = None ↔ ∃ url, url ∈ photos step ∧ bad E url.
Proof.
  unfold drawStep.
  destruct (_ && _) eqn:Hempty.
  - split; [done|]. intros (u & Hu & _).
    apply andb_true_iff in Hempty as [_ Hph].
    destruct (photos step); [by apply elem_of_nil in Hu|done].
  - cbv zeta. rewrite <-(drawPhotos_None s 0 (photos step)
      (advance 20 (text (Heading s) ("Schritt " +:+ num E (index step))
         AlignLeft LegacyPdf.margin
         (y (setFontSize 14 (setFont bold
               (if Qltb (pageH E) (y st + 250)
                then LegacyPdf.addPage st else st))))
         (setFontSize 14 (setFont bold
               (if Qltb (pageH E) (y st + 250)
                then LegacyPdf.addPage st else st)))))).
    destruct (drawPhotos _ _ _ _ _); simpl; split; done.
Qed.

Lemma drawSteps_None s l st :
  drawSteps E s l st = None
  ↔ ∃ step url, step ∈ l ∧ url ∈ photos step ∧ bad E url.
Proof.
  revert s st. induction l as [|step r IH]; intros s st; simpl.
  - split; [done|]. intros (x & u & Hx & _). by apply elem_of_nil in Hx.
  - destruct (drawStep E s step st) as [st1|] eqn:H1; simpl.
    + rewrite IH. split.
      * intros (x & u & Hx & Hu). exists x, u. split; [by right|done].
      * intros (x & u & Hx & Hu & Hb). apply elem_of_cons in Hx as [->|Hx].
        -- assert (drawStep E s step st = None) as Hn
             by (apply drawStep_None; by exists u).
           by rewrite H1 in Hn.
        -- by exists x, u.
    + split; [|done]. intros _.
      apply drawStep_None in H1 as (u & Hu & Hb).
      exists step, u. split; [by left|done].
Qed.

End Exporting.
End LegacyPdfFacts.

(** X21: in the export of the first version red does not leak. In a
    saved document the text of an item marked important is red and
    every other drawing operation (title, meta line, headings, images,
    other texts, footers) is black, and the pen is black at the end. *)
Theorem legacy_red_only_for_important
    (E : Pdf.Platform) (toLocaleDateString : string → string)
    (p : Data.ProcessData) (doc : Pdf.St) :
  LegacyPdf.exportPDF E toLocaleDateString p = Some doc →
  Pdf.color doc = Pdf.black
  ∧ ∀ o, o ∈ Pdf.ops doc →
      Pdf.op_color o
      = match LegacyPdf.item_of p o with
        | Some t => if Data.important t then Pdf.red else Pdf.black
        | None => Pdf.black
        end.
Proof.
  unfold LegacyPdf.exportPDF.
  destruct (LegacyPdf.drawSteps E 0 (Data.steps p) _) as [st|] eqn:Hst;
    [|done].
  simpl. intros [= <-].
  assert (LegacyPdf.tidy p st) as Htidy.
  { eapply LegacyPdfFacts.tidy_drawSteps; [|apply LegacyPdfFacts.tidy_drawHeader|exact Hst].
    by intros k step Hk. }
  apply (LegacyPdfFacts.tidy_footers E toLocaleDateString p
           (Pdf.pages st) (seq 1 (Pdf.pages st))) in Htidy.
  destruct Htidy as [Hc Hops]. split; [exact Hc|].
  intros o Ho. by eapply Forall_forall in Hops.
Qed.

(** X22: the export of the first version saves a document unless some
    photo of the process does not decode or is refused by
    [pdf.addImage]: it saves nothing exactly when some step holds such a
    photo. *)
Theorem legacy_export_all_or_nothing
    (E : Pdf.Platform) (toLocaleDateString : string → string)
    (p : Data.ProcessData) :
  LegacyPdf.exportPDF E toLocaleDateString p = None
  ↔ ∃ step url, step ∈ Data.steps p ∧ url ∈ Data.photos step
                ∧ (Pdf.loadImage E url = None ∨ Pdf.addImage E url = false).
Proof.
  unfold LegacyPdf.exportPDF.
  rewrite <-(LegacyPdfFacts.drawSteps_None E 0 (Data.steps p)
    (LegacyPdf.drawHeader E p (Pdf.new_doc LegacyPdf.margin))).
  destruct (LegacyPdf.drawSteps _ _ _ _); simpl; split; done.
Qed.

Lemma legacy_red_only_for_important_witness :
  ∃ doc, LegacyPdf.exportPDF Sample.a4 (fun iso => iso)
           Sample.warning_then_remark = Some doc
         ∧ Pdf.color doc = Pdf.black.
Proof.
  destruct (LegacyPdf.exportPDF Sample.a4 (fun iso => iso)
              Sample.warning_then_remark) as [doc|] eqn:Hd;
    [|vm_compute in Hd; discriminate Hd].
  exists doc. split; [reflexivity|].
  exact (proj1 (legacy_red_only_for_important _ _ _ _ Hd)).
Defined.

(** ** The first version: the editor *)

Module LegacyAppFacts.
Import Data LegacyApp RoundTrip Reach.

Lemma positional_insert l i ph tx :
  positional l → positional (<[i := step i ph tx]> l).
Proof.
  intros Hl j s. destruct (decide (i = j)) as [<-|Hne].
  - intros Hs. apply list_lookup_insert_Some in Hs as [(_ & <- & _)|[? _]];
      done.
  - rewrite list_lookup_insert_ne by done. apply Hl.
Qed.

Lemma positional_snoc l ph tx :
  positional l → positional (l ++ [step (length l) ph tx]).
Proof.
  intros Hl j s Hs. apply lookup_app_Some in Hs as [Hs|[Hge Hs]].
  - by apply Hl.
  - apply list_lookup_singleton_Some in Hs as [Hj <-]. simpl.
    f_equal. lia.
Qed.

Lemma sound_initial : sound initial.
Proof. by intros p. Qed.

Lemma sound_same st st' :
  process st' = process st → current st' = current st →
  sound st → sound st'.
Proof. unfold sound. by intros -> ->. Qed.

Lemma sound_startProcess now st : sound st → sound (startProcess now st).
Proof.
  intros Hst. unfold startProcess. case_decide; [by eapply sound_same|].
  intros p. simpl. intros [= <-]. simpl. split; [lia|]. split.
  - by intros [|i] s; simpl; [intros [= <-]|].
  - intros i Hi. lia.
Qed.

Lemma sound_finishStep st :
  sound st → ∃ st', finishStep st = Some st' ∧ sound st'.
Proof.
  intros Hst. unfold finishStep.
  destruct (process st) as [p|] eqn:Hp; [|by exists st].
  destruct (decide (photos st = [] ∨ texts st = [])) as [Hempty|Hfull].
  { eexists. split; [done|]. by eapply sound_same. }
  destruct (Hst p Hp) as (Hlt & Hpos & Hbefore).
  unfold assign. rewrite decide_True by done. simpl.
  eexists. split; [done|]. intros q. simpl. intros [= <-]. simpl.
  rewrite length_app, length_insert. simpl. split; [lia|]. split.
  - rewrite <-(length_insert (Data.steps p) (current st)
                 (step (current st) (photos st) (texts st))).
    by apply positional_snoc, positional_insert.
  - intros i Hi. destruct (decide (i = current st)) as [->|Hne].
    + exists (step (current st) (photos st) (texts st)). split.
      * apply lookup_app_l_Some. by apply list_lookup_insert_eq.
      * simpl. split; intros Heq; apply Hfull; auto.
    + destruct (Hbefore i) as (s & Hs & Hc); [lia|].
      exists s. split; [|done]. apply lookup_app_l_Some.
      by rewrite list_lookup_insert_ne.
Qed.

Lemma sound_backStep st : sound st → sound (backStep st).
Proof.
  intros Hst. unfold backStep. destruct (current st) as [|i] eqn:Hi; [done|].
  intros p. simpl. intros Hp. destruct (Hst p Hp) as (Hlt & Hpos & Hbefore).
  rewrite Hi in Hlt, Hbefore.
  split; [lia|]. split; [done|]. intros j Hj. apply Hbefore. lia.
Qed.

Lemma sound_finishProcess st : sound st → sound (finishProcess st).
Proof.
  intros Hst. unfold finishProcess.
  destruct (process st) as [p|] eqn:Hp; [|done].
  intros q. simpl. intros [= <-]. simpl. by apply Hst.
Qed.

Lemma sound_handle ev st :
  sound st → ∃ st', handle ev st = Some st' ∧ sound st'.
Proof.
  intros Hst. destruct ev; simpl;
    try (eexists; split; [done|]; by eapply sound_same).
  - eexists. split; [done|]. unfold addText.
    case_decide; [done|by eapply sound_same].
  - eexists. split; [done|]. by apply sound_startProcess.
  - by apply sound_finishStep.
  - eexists. split; [done|]. by apply sound_backStep.
  - eexists. split; [done|]. by apply sound_finishProcess.
Qed.

End LegacyAppFacts.

(** X23: the editor of the first version never gets stuck. Every
    sequence of events runs through from the first render (no
    assignment to the step list ever leaves a hole), and in the state
    reached the current step exists, the steps are numbered 1, 2, ...
    by position, and every step before the current one holds a photo and
    a text. *)
Theorem legacy_editor_keeps_current_step (evs : list LegacyApp.Event) :
  ∃ st, LegacyApp.run evs LegacyApp.initial = Some st
        ∧ ∀ p, LegacyApp.process st = Some p →
            (LegacyApp.current st < length (Data.steps p))%nat
            ∧ (∀ i s, Data.steps p !! i = Some s →
                 Data.index s = Data.position i)
            ∧ ∀ i, (i < LegacyApp.current st)%nat →
                ∃ s, Data.steps p !! i = Some s
                     ∧ Data.photos s ≠ [] ∧ Data.texts s ≠ [].
Proof.
  assert (∀ st0, LegacyApp.sound st0 →
            ∃ st, LegacyApp.run evs st0 = Some st ∧ LegacyApp.sound st)
    as Hrun.
  { induction evs as [|ev r IH]; intros st0 Hst0; simpl.
    - by exists st0.
    - destruct (LegacyAppFacts.sound_handle ev st0 Hst0) as (st1 & -> & Hst1).
      simpl. by apply IH. }
  destruct (Hrun _ LegacyAppFacts.sound_initial) as (st & Hst & Hsound).
  exists st. split; [exact Hst|]. exact Hsound.
Qed.

(** ** Finalising twice *)

(** X24: a second finalisation without an edit changes nothing when the
    finalized record does not end with an empty step: after "finish
    process" twice in a row the held record, its version included, and
    the snapshot are those after the first, and the state is
    finalized. *)
Theorem second_finalisation_keeps_version
    (fraction_toString : Q → string) (st st1 st2 : App.State)
    (p1 : Data.ProcessData) :
  Events.dispatch fraction_toString Events.ClickFinishProcess st = Some st1 →
  App.process st1 = Some p1 →
  (∀ l, last (Data.steps p1) = Some l → Data.is_empty_step l = false) →
  Events.dispatch fraction_toString Events.ClickFinishProcess st1 = Some st2 →
  App.process st2 = Some p1
  ∧ App.lastSnapshot st2 = App.lastSnapshot st1
  ∧ App.finalized st2 = true.
Proof.
  intros Hd1 Hp1 Hlast Hd2.
  destruct (App.process st) as [p|] eqn:Hp.
  2:{ unfold Events.dispatch in Hd1. simpl in Hd1.
      unfold App.finishProcess in Hd1. rewrite Hp in Hd1.
      rewrite decide_True in Hd1 by done. injection Hd1 as <-.
      congruence. }
  assert (st1 = App.editorEffect (App.finishProcess st)) as Hst1.
  { unfold Events.dispatch in Hd1. simpl in Hd1.
    rewrite decide_False in Hd1; [by injection Hd1|].
    unfold App.finishProcess. rewrite Hp. simpl. lia. }
  assert (App.process (App.finishProcess st) = Some p1) as Hp1'
    by by rewrite <-EventFacts.process_editorEffect, <-Hst1.
  destruct (IdempotenceFacts.finishProcess_idempotent_when_trimmed
              st p p1 Hp Hp1' Hlast) as [Hsame Hsnap].
  cbv zeta in Hsame, Hsnap. rewrite <-Hst1 in Hsame, Hsnap.
  unfold Events.dispatch in Hd2. simpl in Hd2. injection Hd2 as <-.
  destruct (FinalizeFacts.finishProcess_process st1 p1 Hp1) as (_ & _ & Hfin).
  destruct (decide _).
  - done.
  - by rewrite EventFacts.process_editorEffect,
      EventFacts.lastSnapshot_editorEffect, EventFacts.finalized_editorEffect.
Qed.

Lemma second_finalisation_keeps_version_witness :
  let f := Pdf.fraction_toString Sample.a4 in
  Events.dispatch f Events.ClickFinishProcess Sessions.after_one_step
  = Some Sessions.after_finished
  ∧ ∃ st2, Events.dispatch f Events.ClickFinishProcess Sessions.after_finished
           = Some st2
           ∧ App.process st2 = App.process Sessions.after_finished.
Proof.
  intros f.
  assert (Events.dispatch f Events.ClickFinishProcess Sessions.after_one_step
          = Some Sessions.after_finished) as Hd1 by by vm_compute.
  split; [exact Hd1|].
  destruct (Events.dispatch f Events.ClickFinishProcess
              Sessions.after_finished) as [st2|] eqn:Hd2;
    [|vm_compute in Hd2; discriminate Hd2].
  exists st2. split; [reflexivity|].
  refine (proj1 (second_finalisation_keeps_version f _ _ st2 _
                   Hd1 eq_refl _ Hd2)).
  intros l. simpl. by intros [= <-].
Defined.
